(** * NetworkGraph: the SVG force-directed graph of [js/network-graph.js]

    A shallow embedding of the [NetworkGraph] class: the graph model built by
    [parseData], the force simulation ([startSimulation], [applyForces]), the
    pointer interaction (drag, pan, zoom), the breadth-first path search and
    the path highlighting over the rendered SVG elements.

    Conventions of the embedding.
    - Ids, colours and labels are strings, as in the payload and the DOM.
    - JavaScript numbers that take part in the layout arithmetic (positions,
      velocities, the view box, the zoom) are idealised as real numbers:
      rounding and the non-finite values of IEEE doubles are not modelled.
      The risk score is only ever compared with integer thresholds and is
      kept as an exact rational.
    - An object reference held by the class ([draggedNode]) is the index of
      that object in [this.nodes]; the node objects are created once by
      [parseData] and mutated in place afterwards.
    - The [visited] set of the search is a finite set; the queue is a list
      used first-in first-out ([push] at the end, [shift] at the front).
    - [querySelector] with an attribute selector built from an id is the
      search for the first element whose attribute is that id.  This is what
      the browser does for the ids called [selector_safe] below; the
      statements about a highlighted path are made for those ids. *)

From Stdlib Require Import Reals Lra Lia ZArith QArith.
From stdpp Require Import base option list gmap strings sets.

#[local] Set Warnings "-clear-no-such-hyp,-level-tolerance".

Local Open Scope string_scope.
Local Open Scope list_scope.
Local Open Scope nat_scope.

(** ** Graph model *)

(** An element of [this.edges], as [parseData] builds it. *)
Record Edge := mkEdge {
  e_id : string;
  e_source : string;
  e_target : string;
  e_type : string;
  e_strength : string
}.

(** ** Shortest path (breadth-first search) *)

Module PathFinder.

(** [this.edges.filter(e => e.source === current || e.target === current)
              .map(e => e.source === current ? e.target : e.source)] *)
Definition other_end (current : string) (e : Edge) : string :=
  if bool_decide (e_source e = current) then e_target e else e_source e.

Definition neighbors (edges : list Edge) (current : string) : list string :=
  other_end current <$>
    filter (λ e, e_source e = current ∨ e_target e = current) edges.

(** Outcome of the [for (const neighbor of neighbors)] loop: either the
    function returns from inside the loop, or the loop runs to its end with
    the updated [visited] set and [queue]. *)
Inductive ScanResult :=
| Found (p : list string)
| Continue (visited : gset string) (queue : list (list string)).

Fixpoint scan (endId : string) (path : list string) (ns : list string)
    (visited : gset string) (queue : list (list string)) : ScanResult :=
  match ns with
  | [] => Continue visited queue
  | neighbor :: rest =>
      if bool_decide (neighbor = endId) then Found (path ++ [neighbor])
      else if bool_decide (neighbor ∈ visited) then
        scan endId path rest visited queue
      else
        scan endId path rest ({[neighbor]} ∪ visited)
             (queue ++ [path ++ [neighbor]])
  end.

(** [path[path.length - 1]] followed by the neighbour enumeration.  A path of
    the queue is never empty; for the empty list [current] would be
    [undefined], which no edge end (a string) is equal to. *)
Definition neighbors_of_last (edges : list Edge) (path : list string)
    : list string :=
  match last path with
  | Some current => neighbors edges current
  | None => []
  end.

(** The [while (queue.length > 0)] loop, one iteration per unit of fuel.
    [None] is "out of fuel"; [Some r] is the value the function returns
    ([Some None] for [null]). *)
Fixpoint bfs (fuel : nat) (edges : list Edge) (endId : string)
    (queue : list (list string)) (visited : gset string)
    : option (option (list string)) :=
  match fuel with
  | O => None
  | S fuel' =>
      match queue with
      | [] => Some None
      | path :: queue' =>
          match scan endId path (neighbors_of_last edges path) visited queue' with
          | Found p => Some (Some p)
          | Continue visited' queue'' => bfs fuel' edges endId queue'' visited'
          end
      end
  end.

(** Every iteration either returns or takes one path off the queue, and a
    path is pushed only for an end point of an edge that was not visited
    before: [2 * length edges + 2] iterations always suffice
    (lemma [bfs_fuel_enough] below). *)
Definition bfs_fuel (edges : list Edge) : nat := 2 * length edges + 2.

Definition findShortestPath (edges : list Edge) (startId endId : string)
    : option (list string) :=
  if bool_decide (startId = endId) then Some [startId]
  else
    match bfs (bfs_fuel edges) edges endId [[startId]] {[startId]} with
    | Some r => r
    | None => None
    end.

(** *** What a path is *)

(** The graph is read as undirected: [a] and [b] are adjacent when some edge
    joins them, in either orientation. *)
Definition adjacent (edges : list Edge) (a b : string) : Prop :=
  ∃ e, e ∈ edges ∧
       ((e_source e = a ∧ e_target e = b) ∨ (e_source e = b ∧ e_target e = a)).

(** [p] is a sequence of node ids that starts at [s], ends at [t] and steps
    along an edge between consecutive ids. *)
Definition is_path (edges : list Edge) (s t : string) (p : list string) : Prop :=
  head p = Some s ∧ last p = Some t ∧
  ∀ i a b, p !! i = Some a → p !! S i = Some b → adjacent edges a b.

(** The same notion built from the end of the path, the way the search grows
    its paths ([[...path, neighbor]]). *)
Inductive Walk (edges : list Edge) (s : string) : list string → string → Prop :=
| Walk_start : Walk edges s [s] s
| Walk_step p u w :
    Walk edges s p u → adjacent edges u w → Walk edges s (p ++ [w]) w.

(** *** Vocabulary of the correctness argument *)

(** The queue holds paths of one length [k] followed by paths of length
    [k + 1]: the breadth-first order. *)
Definition banded (queue : list (list string)) : Prop :=
  ∃ k A B, queue = A ++ B ∧
           Forall (λ p, length p = k) A ∧ Forall (λ p, length p = S k) B.

(** Loop invariant of the [while] loop of the search from [s] to [t].
    [done] is the set of nodes whose path has already been taken off the
    queue and whose neighbours have all been looked at. *)
Record Inv (edges : list Edge) (s t : string) (done : gset string)
    (queue : list (list string)) (visited : gset string) : Prop := {
  inv_paths : ∀ p, p ∈ queue →
    ∃ u, Walk edges s p u ∧ u ∈ visited ∧
         ∀ q, Walk edges s q u → length p ≤ length q;
  inv_banded : banded queue;
  inv_visited : ∀ v, v ∈ visited → v ∈ done ∨ ∃ p, p ∈ queue ∧ last p = Some v;
  inv_done : ∀ u w, u ∈ done → adjacent edges u w → w ∈ visited ∧ w ≠ t;
  inv_start : s ∈ visited;
  inv_end : t ∉ visited;
  inv_front : ∀ p0 rest q v,
    queue = p0 :: rest → Walk edges s q v → v ∉ done → length p0 ≤ length q
}.

(** The ids that occur as an end of some edge. *)
Definition endpoints (edges : list Edge) : gset string :=
  list_to_set (e_source <$> edges) ∪ list_to_set (e_target <$> edges).

Definition edge (a b : string) : Edge := mkEdge (a +:+ "-" +:+ b) a b "Related" "Medium".

Definition path5 : list Edge :=
  [edge "A" "B"; edge "B" "C"; edge "C" "D"; edge "D" "E"].

Definition two_components : list Edge :=
  [edge "A" "B"; edge "C" "D"].

End PathFinder.

(** ** Nodes and the payload *)

(** An element of [this.nodes].  [n_layer] is integer valued ([Math.floor]);
    [n_radius] is 32 or 24. *)
Record Node := mkNode {
  n_id : string;
  n_name : string;
  n_type : option string;
  n_riskScore : Q;
  n_isCenter : bool;
  n_x : R;
  n_y : R;
  n_vx : R;
  n_vy : R;
  n_radius : Z;
  n_layer : Z
}.

(** The records of the initialisation payload ([this.data]); a field that
    may be missing is an option. *)
Record NodeRecord := mkNodeRecord {
  nr_id : string;
  nr_name : option string;
  nr_type : option string;
  nr_riskScore : option Q
}.

Record RelRecord := mkRelRecord {
  rr_id : string;
  rr_sourceEntityId : string;
  rr_targetEntityId : string;
  rr_type : option string;
  rr_strength : option string
}.

Record GraphData := mkGraphData {
  centerEntityId : option string;
  d_nodes : option (list NodeRecord);
  relationships : option (list RelRecord)
}.

(** [v || d] on a string that may be missing: [undefined] and the empty
    string are falsy. *)
Definition or_string (v : option string) (d : string) : string :=
  match v with
  | Some s => if bool_decide (s = "") then d else s
  | None => d
  end.

(** [list || []] *)
Definition or_nil {A} (v : option (list A)) : list A :=
  match v with Some l => l | None => [] end.

(** [this.nodes.find(n => n.id === id)], with the index of the object found:
    the index stands for the reference. *)
Definition find_node (nodes : list Node) (id : string) : option (nat * Node) :=
  list_find (λ n, n_id n = id) nodes.

Section ParseData.
Local Open Scope R_scope.

(** One call of the [map] callback over [this.data.nodes].  [r1] and [r2] are
    the values the two calls of [Math.random()] return while this node is
    built (none is made for the center entity). *)
Definition parse_node (center : option string) (len : nat) (r1 r2 : R)
    (index : nat) (node : NodeRecord) : Node :=
  let isCenter := bool_decide (Some (nr_id node) = center) in
  let angle := INR index / INR len * 2 * PI in
  let layer := IZR (Int_part (r1 * 2)) + 1 in
  let baseRadius := 180 * layer in
  let radiusVariation := (r2 - 0.5) * 40 in
  let x := if isCenter then 0 else cos angle * (baseRadius + radiusVariation) in
  let y := if isCenter then 0 else sin angle * (baseRadius + radiusVariation) in
  {| n_id := nr_id node;
     n_name := or_string (nr_name node) "Unknown";
     n_type := nr_type node;
     n_riskScore := default 0%Q (nr_riskScore node);
     n_isCenter := isCenter;
     n_x := x; n_y := y; n_vx := 0; n_vy := 0;
     n_radius := if isCenter then 32%Z else 24%Z;
     n_layer := if isCenter then 0%Z else Int_part (sqrt (x * x + y * y) / 180) |}.

(** The [map] callback over [this.data.relationships]: no check of the two
    ids against the nodes is made. *)
Definition parse_edge (rel : RelRecord) : Edge :=
  {| e_id := rr_id rel;
     e_source := rr_sourceEntityId rel;
     e_target := rr_targetEntityId rel;
     e_type := or_string (rr_type rel) "Related";
     e_strength := or_string (rr_strength rel) "Medium" |}.

(** [parseData()]: the new values of [this.nodes] and [this.edges].
    [random i] gives the two random draws made for the node at index [i]. *)
Definition parseData (data : GraphData) (random : nat → R * R)
    : list Node * list Edge :=
  let records := or_nil (d_nodes data) in
  (imap (λ index node,
           parse_node (centerEntityId data) (length records)
                      (fst (random index)) (snd (random index)) index node)
        records,
   parse_edge <$> or_nil (relationships data)).

End ParseData.

(** ** The rendered SVG elements *)

(** Only the attributes that the highlighting reads or writes are kept:
    geometry ([r], [x1], [transform], ...), [fill], opacity, labels, icons
    and badges texts are never touched by it. *)

(** [url(#shadow-<container id>)] and [url(#glow-<container id>)] *)
Inductive FilterRef := shadow | glow.

Record Circle := mkCircle {
  c_stroke : string;
  c_stroke_width : Z;
  c_filter : option FilterRef
}.

(** A [<g class="node-group">]: its [data-node-id] and its [<circle>]
    descendants in document order.  [querySelector('circle')] returns the
    first of them; the main circle is always among them. *)
Record NodeGroup := mkNodeGroup {
  ngr_nodeId : string;
  ngr_first : Circle;
  ngr_rest : list Circle
}.

(** The [<line class="edge-line">] of an edge: whether its class list holds
    [path-highlight], two attributes, its [data-strength] and the number of
    its [<animate>] children. *)
Record Line := mkLine {
  l_path_highlight : bool;
  l_stroke : string;
  l_stroke_width : Z;
  l_dataset_strength : option string;
  l_animates : nat
}.

(** A [<g data-edge-id=...>] of the edges group. *)
Record EdgeGroup := mkEdgeGroup {
  eg_edgeId : string;
  eg_line : Line
}.

(** [colors[strength] || '#94a3b8'] and [widths[strength] || 2] over the
    three keys of the object literals (a strength that names a property of
    [Object.prototype] is outside the model). *)
Definition getEdgeColor (strength : string) : string :=
  if bool_decide (strength = "Strong") then "#475569"
  else if bool_decide (strength = "Medium") then "#94a3b8"
  else if bool_decide (strength = "Weak") then "#cbd5e1"
  else "#94a3b8".

Definition getEdgeWidth (strength : string) : Z :=
  if bool_decide (strength = "Strong") then 3
  else if bool_decide (strength = "Medium") then 2
  else if bool_decide (strength = "Weak") then 1
  else 2.

Definition getRiskColor (score : Q) : string :=
  if Qle_bool 80 score then "#ef4444"
  else if Qle_bool 60 score then "#f59e0b"
  else if Qle_bool 40 score then "#3b82f6"
  else "#22c55e".

(** [renderEdges()]: one group per edge whose two ends are found among the
    nodes; the other edges are skipped.  [data-strength] is not set. *)
Definition render_edge (nodes : list Node) (e : Edge) : option EdgeGroup :=
  match find_node nodes (e_source e), find_node nodes (e_target e) with
  | Some _, Some _ =>
      Some {| eg_edgeId := e_id e;
              eg_line := {| l_path_highlight := false;
                            l_stroke := getEdgeColor (e_strength e);
                            l_stroke_width := getEdgeWidth (e_strength e);
                            l_dataset_strength := None;
                            l_animates := 0 |} |}
  | _, _ => None
  end.

Definition renderEdges (nodes : list Node) (edges : list Edge) : list EdgeGroup :=
  omap (render_edge nodes) edges.

(** The stroke and stroke width the main circle is rendered with. *)
Definition base_stroke (n : Node) : string :=
  if n_isCenter n then "#1e40af" else "#fff".

Definition base_stroke_width (n : Node) : Z :=
  if n_isCenter n then 4 else 2.

(** [renderNodes()], one group per node: the optional layer ring, the
    optional risk ring, the main circle, then the circle of the risk badge. *)
Definition render_node (n : Node) : NodeGroup :=
  let layerRing :=
    if negb (n_isCenter n) && (0 <? n_layer n)%Z
    then [mkCircle "#e2e8f0" 1 None] else [] in
  let riskRing :=
    if Qle_bool 60 (n_riskScore n)
    then [mkCircle (getRiskColor (n_riskScore n)) 3 None] else [] in
  let circle := mkCircle (base_stroke n) (base_stroke_width n) (Some shadow) in
  let badgeCircle := mkCircle "white" 2 None in
  match layerRing ++ riskRing ++ [circle; badgeCircle] with
  | c :: cs => mkNodeGroup (n_id n) c cs
  | [] => mkNodeGroup (n_id n) circle [badgeCircle]
  end.

Definition renderNodes (nodes : list Node) : list NodeGroup :=
  render_node <$> nodes.

(** ** The state of a [NetworkGraph] object *)

Record ViewBox := mkViewBox {
  vb_x : R;
  vb_y : R;
  vb_width : R;
  vb_height : R
}.

Record NetworkGraph := mkNetworkGraph {
  nodes : list Node;
  edges : list Edge;
  selectedNode : option nat;
  draggedNode : option nat;
  isPanning : bool;
  panStart : R * R;
  viewBox : ViewBox;
  zoom : R;
  simulationRunning : bool;
  edgesGroup : list EdgeGroup;
  nodesGroup : list NodeGroup
}.

Definition set_dom (eg : list EdgeGroup) (ng : list NodeGroup)
    (g : NetworkGraph) : NetworkGraph :=
  mkNetworkGraph (nodes g) (edges g) (selectedNode g) (draggedNode g)
    (isPanning g) (panStart g) (viewBox g) (zoom g) (simulationRunning g) eg ng.

Definition set_nodes (ns : list Node) (g : NetworkGraph) : NetworkGraph :=
  mkNetworkGraph ns (edges g) (selectedNode g) (draggedNode g)
    (isPanning g) (panStart g) (viewBox g) (zoom g) (simulationRunning g)
    (edgesGroup g) (nodesGroup g).

Definition set_running (b : bool) (g : NetworkGraph) : NetworkGraph :=
  mkNetworkGraph (nodes g) (edges g) (selectedNode g) (draggedNode g)
    (isPanning g) (panStart g) (viewBox g) (zoom g) b
    (edgesGroup g) (nodesGroup g).

Definition set_pointer (sel dragged : option nat) (panning : bool)
    (start : R * R) (g : NetworkGraph) : NetworkGraph :=
  mkNetworkGraph (nodes g) (edges g) sel dragged panning start
    (viewBox g) (zoom g) (simulationRunning g) (edgesGroup g) (nodesGroup g).

Definition set_view (vb : ViewBox) (z : R) (g : NetworkGraph) : NetworkGraph :=
  mkNetworkGraph (nodes g) (edges g) (selectedNode g) (draggedNode g)
    (isPanning g) (panStart g) vb z (simulationRunning g)
    (edgesGroup g) (nodesGroup g).

(** The object as the constructor leaves it once [parseData()] and
    [render()] have run (the simulation is started separately below). *)
Definition rendered (ns : list Node) (es : list Edge) : NetworkGraph :=
  {| nodes := ns; edges := es;
     selectedNode := None; draggedNode := None;
     isPanning := false; panStart := (0%R, 0%R);
     viewBox := mkViewBox (-500) (-400) 1000 800; zoom := 1%R;
     simulationRunning := false;
     edgesGroup := renderEdges ns es; nodesGroup := renderNodes ns |}.

(** ** Path highlighting *)

(** [highlightPath] finds the group of an edge and the group of a node with
    [querySelector] on the texts [[data-edge-id="${edge.id}"]] and
    [[data-node-id="${nodeId}"]]: the id is put between the quotes as it
    is, without [CSS.escape].  The browser reads such a text as the test
    that the attribute equals the id when the id holds none of these
    characters: the double quote, which ends the CSS string; the backslash,
    which starts an escape; and NUL, line feed, form feed and carriage
    return, which the CSS tokenizer rewrites or refuses inside a string.
    With one of them the text is another selector, or none, and what
    [querySelector] then does (find no group, find another one, throw) is
    not modelled. *)
Definition selector_unsafe (c : Ascii.ascii) : bool :=
  let n := Ascii.nat_of_ascii c in
  (n =? 0) || (n =? 10) || (n =? 12) || (n =? 13) || (n =? 34) || (n =? 92).

Fixpoint selector_safeb (id : string) : bool :=
  match id with
  | EmptyString => true
  | String c rest => negb (selector_unsafe c) && selector_safeb rest
  end.

Definition selector_safe (id : string) : Prop := selector_safeb id = true.

(** The body of the [forEach] over [.path-highlight] lines.  The colour and
    the width are looked up under [line.dataset.strength || 'Medium']. *)
Definition clear_line (l : Line) : Line :=
  if l_path_highlight l then
    {| l_path_highlight := false;
       l_stroke := getEdgeColor (or_string (l_dataset_strength l) "Medium");
       l_stroke_width := getEdgeWidth (or_string (l_dataset_strength l) "Medium");
       l_dataset_strength := l_dataset_strength l;
       l_animates := 0 |}
  else l.

Definition clear_edge_group (eg : EdgeGroup) : EdgeGroup :=
  mkEdgeGroup (eg_edgeId eg) (clear_line (eg_line eg)).

(** The body of the [forEach] over the node groups: the first circle gets
    the base stroke back and loses its [filter] attribute. *)
Definition clear_node_group (ns : list Node) (grp : NodeGroup) : NodeGroup :=
  match find_node ns (ngr_nodeId grp) with
  | Some (_, node) =>
      mkNodeGroup (ngr_nodeId grp)
        (mkCircle (base_stroke node) (base_stroke_width node) None)
        (ngr_rest grp)
  | None => grp
  end.

Definition clearPathHighlight (g : NetworkGraph) : bool * NetworkGraph :=
  (true, set_dom (clear_edge_group <$> edgesGroup g)
                 (clear_node_group (nodes g) <$> nodesGroup g) g).

(** [(e.source === a && e.target === b) || (e.source === b && e.target === a)] *)
Definition joins (a b : string) (e : Edge) : Prop :=
  (e_source e = a ∧ e_target e = b) ∨ (e_source e = b ∧ e_target e = a).

#[global] Instance joins_dec a b e : Decision (joins a b e).
Proof. unfold joins. apply _. Defined.

Definition highlight_line (l : Line) : Line :=
  {| l_path_highlight := true;
     l_stroke := "#3b82f6";
     l_stroke_width := 4;
     l_dataset_strength := l_dataset_strength l;
     l_animates := S (l_animates l) |}.

(** One iteration of the loop over [i]: the first edge that joins
    [path[i]] and [path[i + 1]], then
    [this.edgesGroup.querySelector(`[data-edge-id="${edge.id}"]`)], which
    for a [selector_safe] id is the first group with that id. *)
Definition highlight_edge (es : list Edge) (groups : list EdgeGroup)
    (sourceId targetId : string) : list EdgeGroup :=
  match list_find (joins sourceId targetId) es with
  | Some (_, e) =>
      match list_find (λ eg, eg_edgeId eg = e_id e) groups with
      | Some (j, eg) =>
          <[j := mkEdgeGroup (eg_edgeId eg) (highlight_line (eg_line eg))]> groups
      | None => groups
      end
  | None => groups
  end.

(** The pairs [(path[i], path[i + 1])] for [i] from [0] to [length - 2]. *)
Fixpoint consecutive (path : list string) : list (string * string) :=
  match path with
  | [] => []
  | a :: rest =>
      match rest with
      | [] => []
      | b :: _ => (a, b) :: consecutive rest
      end
  end.

Definition highlight_edges (es : list Edge) (path : list string)
    (groups : list EdgeGroup) : list EdgeGroup :=
  fold_left (λ gs ab, highlight_edge es gs ab.1 ab.2) (consecutive path) groups.

Definition highlight_circle : Circle := mkCircle "#3b82f6" 4 (Some glow).

(** One call of the [path.forEach] callback:
    [this.nodesGroup.querySelector(`[data-node-id="${nodeId}"]`)], which for
    a [selector_safe] id is the first group with that id, then the first
    circle of that group. *)
Definition highlight_node (groups : list NodeGroup) (nodeId : string)
    : list NodeGroup :=
  match list_find (λ grp, ngr_nodeId grp = nodeId) groups with
  | Some (i, grp) =>
      <[i := mkNodeGroup (ngr_nodeId grp) highlight_circle (ngr_rest grp)]> groups
  | None => groups
  end.

Definition highlight_nodes (path : list string) (groups : list NodeGroup)
    : list NodeGroup :=
  fold_left highlight_node path groups.

Definition highlightPath (g : NetworkGraph) (sourceNodeId targetNodeId : string)
    : bool * NetworkGraph :=
  match PathFinder.findShortestPath (edges g) sourceNodeId targetNodeId with
  | None => (false, g)
  | Some path =>
      if length path <? 2 then (false, g)
      else
        let g1 := (clearPathHighlight g).2 in
        (true, set_dom (highlight_edges (edges g1) path (edgesGroup g1))
                       (highlight_nodes path (nodesGroup g1)) g1)
  end.

(** [highlightNode(nodeId)], the selection highlight: every first circle
    gets the shadow filter, the selected one the glow filter. *)
Definition highlightNode (g : NetworkGraph) (nodeId : string) : NetworkGraph :=
  match find_node (nodes g) nodeId with
  | Some (i, _) =>
      let select grp :=
        mkNodeGroup (ngr_nodeId grp)
          (mkCircle (c_stroke (ngr_first grp)) (c_stroke_width (ngr_first grp))
             (Some (if bool_decide (ngr_nodeId grp = nodeId) then glow else shadow)))
          (ngr_rest grp) in
      set_pointer (Some i) (draggedNode g) (isPanning g) (panStart g)
        (set_dom (edgesGroup g) (select <$> nodesGroup g) g)
  | None => g
  end.

(** *** Vocabulary of the claims about the highlight state *)

(** The SVG elements are in step with the model: one node group per node,
    in order, and no node id or edge-group id occurs twice. *)
Definition well_rendered (g : NetworkGraph) : Prop :=
  ngr_nodeId <$> nodesGroup g = n_id <$> nodes g ∧
  NoDup (n_id <$> nodes g) ∧
  NoDup (eg_edgeId <$> edgesGroup g).



(** Every id that [highlightPath] can put into a selector, the id of an
    edge and the ids at its two ends, is [selector_safe]. *)
Definition selector_safe_graph (g : NetworkGraph) : Prop :=
  Forall (λ e, selector_safe (e_id e) ∧
               selector_safe (e_source e) ∧ selector_safe (e_target e))
         (edges g).




(** The state a successful [highlightPath] leaves when the search has
    returned [path]. *)
Definition highlighted (path : list string) (g : NetworkGraph) : NetworkGraph :=
  set_dom
    (highlight_edges (edges g) path (clear_edge_group <$> edgesGroup g))
    (highlight_nodes path (clear_node_group (nodes g) <$> nodesGroup g))
    (clearPathHighlight g).2.

(** ** The force simulation *)

Section Simulation.
Local Open Scope R_scope.

Definition repulsionStrength : R := 6000.
Definition attractionStrength : R := 0.06.
Definition centerStrength : R := 0.02.
Definition layerStrength : R := 0.03.
Definition damping : R := 0.8.
Definition maxDist : R := 500.

(** [n.vx += fx; n.vy += fy] *)
Definition add_velocity (fx fy : R) (n : Node) : Node :=
  mkNode (n_id n) (n_name n) (n_type n) (n_riskScore n) (n_isCenter n)
    (n_x n) (n_y n) (n_vx n + fx) (n_vy n + fy) (n_radius n) (n_layer n).

(** [n.vx -= fx; n.vy -= fy] *)
Definition sub_velocity (fx fy : R) (n : Node) : Node :=
  mkNode (n_id n) (n_name n) (n_type n) (n_riskScore n) (n_isCenter n)
    (n_x n) (n_y n) (n_vx n - fx) (n_vy n - fy) (n_radius n) (n_layer n).

(** The body of the double loop, for the objects [this.nodes[i]] and
    [this.nodes[j]] ([i < j], so they are two objects). *)
Definition repel_pair (alpha : R) (i j : nat) (ns : list Node) : list Node :=
  match ns !! i, ns !! j with
  | Some n1, Some n2 =>
      let dx := n_x n1 - n_x n2 in
      let dy := n_y n1 - n_y n2 in
      let dist0 := sqrt (dx * dx + dy * dy) in
      let dist := if Rlt_dec dist0 1 then 1 else dist0 in
      let layerMultiplier :=
        if bool_decide (n_layer n1 = n_layer n2) then 1.5 else 1.0 in
      let force := (repulsionStrength * layerMultiplier) / (dist * dist) * alpha in
      let fx := (dx / dist) * force in
      let fy := (dy / dist) * force in
      alter (sub_velocity fx fy) j (alter (add_velocity fx fy) i ns)
  | _, _ => ns
  end.

(** [for (i = 0; i < length; i++) for (j = i + 1; j < length; j++) ...] *)
Definition repulsion (alpha : R) (ns : list Node) : list Node :=
  let len := length ns in
  fold_left
    (λ ns1 i,
       fold_left (λ ns2 j, repel_pair alpha i j ns2) (seq (S i) (len - S i)) ns1)
    (seq 0 len) ns.

Definition targetDist_of (strength : string) : R :=
  if bool_decide (strength = "Strong") then 100
  else if bool_decide (strength = "Medium") then 140
  else 180.

(** The callback of [this.edges.forEach]: an edge with an end that is not a
    node is skipped.  [source] and [target] may be the same object. *)
Definition attract_edge (alpha : R) (ns : list Node) (e : Edge) : list Node :=
  match find_node ns (e_source e), find_node ns (e_target e) with
  | Some (i, source), Some (j, target) =>
      let dx := n_x target - n_x source in
      let dy := n_y target - n_y source in
      let dist := sqrt (dx * dx + dy * dy) in
      let targetDist := targetDist_of (e_strength e) in
      let force := (dist - targetDist) * attractionStrength * alpha in
      let fx := (dx / Rmax 1 dist) * force in
      let fy := (dy / Rmax 1 dist) * force in
      alter (sub_velocity fx fy) j (alter (add_velocity fx fy) i ns)
  | _, _ => ns
  end.

Definition attraction (alpha : R) (es : list Edge) (ns : list Node) : list Node :=
  fold_left (attract_edge alpha) es ns.

(** The callback of the last [this.nodes.forEach], past its first line:
    centering, layer retention, damping, integration and clamping. *)
Definition integrate (alpha : R) (node : Node) : Node :=
  let '(vx, vy) :=
    if n_isCenter node then
      (n_vx node - n_x node * 0.1 * alpha, n_vy node - n_y node * 0.1 * alpha)
    else
      let vx := n_vx node - n_x node * centerStrength * alpha in
      let vy := n_vy node - n_y node * centerStrength * alpha in
      let currentDist := sqrt (n_x node * n_x node + n_y node * n_y node) in
      let targetDist := IZR (n_layer node) * 180 in
      if Rlt_dec 0 currentDist then
        if Rlt_dec 0 targetDist then
          let distDiff := currentDist - targetDist in
          let force := distDiff * layerStrength * alpha in
          (vx - (n_x node / currentDist) * force,
           vy - (n_y node / currentDist) * force)
        else (vx, vy)
      else (vx, vy) in
  let vx := vx * damping in
  let vy := vy * damping in
  let x := n_x node + vx in
  let y := n_y node + vy in
  mkNode (n_id node) (n_name node) (n_type node) (n_riskScore node)
    (n_isCenter node)
    (Rmax (- maxDist) (Rmin maxDist x)) (Rmax (- maxDist) (Rmin maxDist y))
    vx vy (n_radius node) (n_layer node).

(** [if (node === this.draggedNode) return;] then the rest of the callback. *)
Definition integration (alpha : R) (dragged : option nat) (ns : list Node)
    : list Node :=
  imap (λ i node, if bool_decide (dragged = Some i) then node
                  else integrate alpha node) ns.

Definition applyForces (alpha : R) (g : NetworkGraph) : NetworkGraph :=
  set_nodes
    (integration alpha (draggedNode g)
       (attraction alpha (edges g) (repulsion alpha (nodes g))))
    g.

(** [updatePositions()] copies the positions into geometry attributes of
    the SVG elements, none of which is part of the model. *)
Definition updatePositions (g : NetworkGraph) : NetworkGraph := g.

Definition maxSteps : nat := 150.

(** One call of the [tick] closure whose variable [steps] holds [steps]:
    the new state, and the new value of [steps] when the closure passed
    itself to [requestAnimationFrame] again ([None] when it returned
    without doing so). *)
Definition tick (steps : nat) (g : NetworkGraph) : NetworkGraph * option nat :=
  if negb (simulationRunning g) || (maxSteps <=? steps)%nat then
    (set_running false g, None)
  else
    let steps' := S steps in
    let alpha := 1 - INR steps' / INR maxSteps in
    (updatePositions (applyForces alpha g), Some steps').

(** The object together with the [tick] closures that wait for the next
    animation frame, each with its own [steps] counter. *)
Record Page := mkPage {
  graph : NetworkGraph;
  scheduled : list nat
}.

(** [startSimulation()]: a new closure with [steps = 0] is scheduled. *)
Definition startSimulation (p : Page) : Page :=
  mkPage (set_running true (graph p)) (scheduled p ++ [O]).

(** One animation frame: every closure scheduled before the frame runs
    once, in order; those that reschedule themselves wait for the next. *)
Definition run_callback (st : NetworkGraph * list nat) (steps : nat)
    : NetworkGraph * list nat :=
  let '(g', again) := tick steps st.1 in
  (g', st.2 ++ option_list again).

Definition frame (p : Page) : Page :=
  let '(g', next) := fold_left run_callback (scheduled p) (graph p, []) in
  mkPage g' next.

Fixpoint frames (n : nat) (p : Page) : Page :=
  match n with
  | O => p
  | S n' => frames n' (frame p)
  end.

(** [destroy()]: the flag is cleared; the emptied container holds no
    modelled element. *)
Definition destroy (p : Page) : Page :=
  mkPage (set_running false (graph p)) (scheduled p).

(** The state after [k] simulation steps of one run: [applyForces] with
    [alpha = 1 - i / maxSteps] for [i = 1 .. k]. *)
Fixpoint steps_applied (k : nat) (g : NetworkGraph) : NetworkGraph :=
  match k with
  | O => g
  | S k' => updatePositions (applyForces (1 - INR k / INR maxSteps) (steps_applied k' g))
  end.

(** ** Pointer interaction and zoom *)

(** The bounding rectangle of the [<svg>] element. *)
Record Rect := mkRect {
  r_left : R;
  r_top : R;
  r_width : R;
  r_height : R
}.

(** [mousedown] on a node group: the listener of the nodes group stops the
    propagation, so the listener of the [<svg>] does not run. *)
Definition mousedown_node (g : NetworkGraph) (nodeId : string) : NetworkGraph :=
  let found := fst <$> find_node (nodes g) nodeId in
  set_pointer found found (isPanning g) (panStart g) g.

(** [mousedown] elsewhere on the [<svg>]. *)
Definition mousedown_canvas (g : NetworkGraph) (clientX clientY : R)
    : NetworkGraph :=
  match draggedNode g with
  | Some _ => g
  | None => set_pointer (selectedNode g) None true (clientX, clientY) g
  end.

(** [this.draggedNode.x = svgX; this.draggedNode.y = svgY] *)
Definition move_to (x y : R) (n : Node) : Node :=
  mkNode (n_id n) (n_name n) (n_type n) (n_riskScore n) (n_isCenter n)
    x y (n_vx n) (n_vy n) (n_radius n) (n_layer n).

Definition svg_point (g : NetworkGraph) (rect : Rect) (clientX clientY : R)
    : R * R :=
  ((clientX - r_left rect) / r_width rect * vb_width (viewBox g) + vb_x (viewBox g),
   (clientY - r_top rect) / r_height rect * vb_height (viewBox g) + vb_y (viewBox g)).

Definition mousemove (g : NetworkGraph) (rect : Rect) (clientX clientY : R)
    : NetworkGraph :=
  match draggedNode g with
  | Some i =>
      let '(svgX, svgY) := svg_point g rect clientX clientY in
      updatePositions (set_nodes (alter (move_to svgX svgY) i (nodes g)) g)
  | None =>
      if isPanning g then
        let dx := (clientX - (panStart g).1) * zoom g in
        let dy := (clientY - (panStart g).2) * zoom g in
        let vb := viewBox g in
        set_pointer (selectedNode g) None true (clientX, clientY)
          (set_view (mkViewBox (vb_x vb - dx) (vb_y vb - dy)
                               (vb_width vb) (vb_height vb)) (zoom g) g)
      else g
  end.

(** [mouseup] and [mouseleave] *)
Definition mouseup (g : NetworkGraph) : NetworkGraph :=
  set_pointer (selectedNode g) None false (panStart g) g.

Definition zoomed (z : R) (g : NetworkGraph) : NetworkGraph :=
  let width := 1000 * z in
  let height := 800 * z in
  set_view (mkViewBox (- width / 2) (- height / 2) width height) z g.

Definition zoomIn (g : NetworkGraph) : NetworkGraph :=
  zoomed (Rmax 0.5 (zoom g - 0.1)) g.

Definition zoomOut (g : NetworkGraph) : NetworkGraph :=
  zoomed (Rmin 2 (zoom g + 0.1)) g.

End Simulation.

(** ** Vocabulary of the claims about the simulation *)

(** [n'] is the object [n] with possibly another velocity: every other
    field, the position among them, is the same. *)
Definition same_but_velocity (n n' : Node) : Prop :=
  n' = mkNode (n_id n) (n_name n) (n_type n) (n_riskScore n) (n_isCenter n)
         (n_x n) (n_y n) (n_vx n') (n_vy n') (n_radius n) (n_layer n).

(** The position lies in the square the integration clamps to. *)
Definition in_bounds (n : Node) : Prop :=
  (- 500 <= n_x n <= 500)%R ∧ (- 500 <= n_y n <= 500)%R.

(** ** Further operations of the class *)

Section MoreOperations.
Local Open Scope R_scope.

(** [focusOnNode(nodeId)]: the view box is moved so that the node is at its
    centre, then the node is highlighted as the selection. *)
Definition focusOnNode (g : NetworkGraph) (nodeId : string) : NetworkGraph :=
  match find_node (nodes g) nodeId with
  | Some (_, node) =>
      let vb := viewBox g in
      highlightNode
        (set_view (mkViewBox (n_x node - vb_width vb / 2)
                             (n_y node - vb_height vb / 2)
                             (vb_width vb) (vb_height vb)) (zoom g) g)
        nodeId
  | None => g
  end.

(** The sum of the [vx] and of the [vy] fields over [this.nodes]. *)
Definition total_vx (ns : list Node) : R := foldr (λ n acc, n_vx n + acc) 0 ns.
Definition total_vy (ns : list Node) : R := foldr (λ n acc, n_vy n + acc) 0 ns.

(** The fields of a node that are neither position nor velocity. *)
Definition same_identity (n n' : Node) : Prop :=
  n_id n' = n_id n ∧ n_name n' = n_name n ∧ n_type n' = n_type n ∧
  n_riskScore n' = n_riskScore n ∧ n_isCenter n' = n_isCenter n ∧
  n_radius n' = n_radius n ∧ n_layer n' = n_layer n.

(** A sequence of [mousemove] events, each with its client coordinates, over
    an [<svg>] whose bounding rectangle is [rect]. *)
Definition mousemoves (rect : Rect) (moves : list (R * R)) (g : NetworkGraph)
    : NetworkGraph :=
  fold_left (λ g0 xy, mousemove g0 rect xy.1 xy.2) moves g.

End MoreOperations.

(** [truncateName(name, maxLength)] on the string a node carries (never
    [undefined]: [parseData] puts ['Unknown'] for a missing name).  A string
    is its sequence of code units; a negative end index of [substring] is
    read as [0], which the truncated subtraction of [nat] gives. *)
Definition truncateName (name : string) (maxLength : nat) : string :=
  if bool_decide (name = "") then ""
  else if (String.length name <=? maxLength)%nat then name
       else String.substring 0 (maxLength - 2) name +:+ "...".

(** ** The exported functions and the registry of graphs *)

Module Api.

(** The module-level [graphs] map, keyed by the id of the container
    element; a value carries the object and its scheduled closures. *)
Abbreviation Graphs := (gmap string Page).

(** [new NetworkGraph(container, graphData, dotNetHelper)]: the constructor
    and [init()].  [random] gives the draws of [parseData]. *)
Definition construct (data : GraphData) (random : nat → R * R) : Page :=
  let '(ns, es) := parseData data random in
  startSimulation (mkPage (rendered ns es) []).

(** [render(elementId, graphData, dotNetHelper)].  [found] tells whether
    [document.getElementById(elementId)] returned an element.  A graph
    already registered under the id is destroyed and replaced. *)
Definition render (graphs : Graphs) (elementId : string) (found : bool)
    (data : GraphData) (random : nat → R * R) : bool * Graphs :=
  if found then (true, <[elementId := construct data random]> graphs)
  else (false, graphs).

Definition destroy (graphs : Graphs) (elementId : string) : bool * Graphs :=
  match graphs !! elementId with
  | Some _ => (true, delete elementId graphs)
  | None => (false, graphs)
  end.

(** The exported functions that call a method of the registered object and
    return [true], whatever the method did. *)
Definition call (f : NetworkGraph → NetworkGraph) (graphs : Graphs)
    (elementId : string) : bool * Graphs :=
  match graphs !! elementId with
  | Some p => (true, <[elementId := mkPage (f (graph p)) (scheduled p)]> graphs)
  | None => (false, graphs)
  end.

Definition zoomIn : Graphs → string → bool * Graphs := call zoomIn.
Definition zoomOut : Graphs → string → bool * Graphs := call zoomOut.

Definition highlightNode (graphs : Graphs) (elementId nodeId : string) :=
  call (λ g, highlightNode g nodeId) graphs elementId.

Definition focusOnNode (graphs : Graphs) (elementId nodeId : string) :=
  call (λ g, focusOnNode g nodeId) graphs elementId.

Definition getNodeCount (graphs : Graphs) (elementId : string) : nat :=
  match graphs !! elementId with
  | Some p => length (nodes (graph p))
  | None => 0
  end.

Definition getEdgeCount (graphs : Graphs) (elementId : string) : nat :=
  match graphs !! elementId with
  | Some p => length (edges (graph p))
  | None => 0
  end.

(** The exported functions that return what the method returns. *)
Definition highlightPath (graphs : Graphs) (elementId sourceNodeId targetNodeId : string)
    : bool * Graphs :=
  match graphs !! elementId with
  | Some p =>
      let '(r, g') := highlightPath (graph p) sourceNodeId targetNodeId in
      (r, <[elementId := mkPage g' (scheduled p)]> graphs)
  | None => (false, graphs)
  end.

Definition clearPathHighlight (graphs : Graphs) (elementId : string)
    : bool * Graphs :=
  match graphs !! elementId with
  | Some p =>
      let '(r, g') := clearPathHighlight (graph p) in
      (r, <[elementId := mkPage g' (scheduled p)]> graphs)
  | None => (false, graphs)
  end.

End Api.

(** ** Sample data *)

Module Sample.

(** The payload of the concrete scenario of the specification, with a
    [Strong] edge, and the objects [parseData()] builds from it when the two
    random draws for ["B"] are [0] and [0.5] (layer 1, no radius variation;
    ["B"] is the node of index 1 of 2, at angle [PI]). *)
Definition data : GraphData :=
  {| centerEntityId := Some "A";
     d_nodes := Some [mkNodeRecord "A" None (Some "Person") None;
                      mkNodeRecord "B" None (Some "Account") None];
     relationships := Some [mkRelRecord "e1" "A" "B" None (Some "Strong")] |}.

Definition nA : Node :=
  mkNode "A" "Unknown" (Some "Person") 0 true 0 0 0 0 32 0.

Definition nB : Node :=
  mkNode "B" "Unknown" (Some "Account") 0 false (-180) 0 0 0 24 1.

Definition e1 : Edge := mkEdge "e1" "A" "B" "Related" "Strong".

Definition g0 : NetworkGraph := rendered [nA; nB] [e1].

(** A payload whose only relationship names an entity ["Z"] that is not
    among the nodes. *)
Definition dangling_data : GraphData :=
  {| centerEntityId := Some "A";
     d_nodes := Some [mkNodeRecord "A" None (Some "Person") None];
     relationships := Some [mkRelRecord "e1" "A" "Z" None None] |}.

Definition draws : nat → R * R := λ _, (0%R, 0.5%R).

(** A third node ["C"] tied to ["B"] by a [Weak] edge: with the path from
    ["A"] to ["B"] highlighted, ["C"] and [e2] are off the path. *)
Definition nC : Node :=
  mkNode "C" "Unknown" (Some "Account") 0 false 180 0 0 0 24 1.

Definition e2 : Edge := mkEdge "e2" "B" "C" "Related" "Weak".

Definition g3 : NetworkGraph := rendered [nA; nB; nC] [e1; e2].

(** [g0] after a pan of 100 units to the right. *)
Definition panned : NetworkGraph :=
  set_view (mkViewBox (-400) (-400) 1000 800) 1%R g0.

End Sample.

(** * Proofs *)

(** ** The search *)

Module PathFinderProofs.
Import PathFinder.

Section Search.
Variable edges : list Edge.

Lemma elem_of_neighbors (u w : string) :
  w ∈ neighbors edges u ↔ adjacent edges u w.
Proof.
  unfold neighbors, adjacent, other_end. rewrite list_elem_of_fmap. split.
  - intros (e & -> & He). apply list_elem_of_filter in He as [Hc He].
    exists e. split; [done|]. case_bool_decide; naive_solver.
  - intros (e & He & Hc). exists e. split.
    + case_bool_decide; naive_solver.
    + apply list_elem_of_filter. naive_solver.
Qed.

(** *** Walks *)

Lemma Walk_last s p u : Walk edges s p u → last p = Some u.
Proof. destruct 1; [done | apply last_snoc]. Qed.

Lemma Walk_head s p u : Walk edges s p u → head p = Some s.
Proof.
  induction 1 as [|p u w Hw IH Ha]; [done|].
  destruct p; [discriminate | done].
Qed.

Lemma Walk_length s p u : Walk edges s p u → 1 ≤ length p.
Proof. destruct 1; [simpl; lia | rewrite length_app; simpl; lia]. Qed.

Lemma Walk_inv s q v :
  Walk edges s q v →
  (q = [s] ∧ v = s) ∨
  (∃ q' u, q = q' ++ [v] ∧ Walk edges s q' u ∧ adjacent edges u v).
Proof. destruct 1; [by left | right; eauto]. Qed.

Lemma Walk_is_path s p t : Walk edges s p t → is_path edges s t p.
Proof.
  intros Hw. split; [by eapply Walk_head|]. split; [by eapply Walk_last|].
  induction Hw as [|p u w Hw IH Ha]; intros i a b Hi Hj.
  - destruct i; discriminate.
  - destruct (decide (S i < length p)) as [Hlt|Hge].
    + rewrite lookup_app_l in Hi by lia. rewrite lookup_app_l in Hj by done.
      eauto.
    + assert (S i = length p) as Heq.
      { apply lookup_lt_Some in Hj. rewrite length_app in Hj. simpl in Hj. lia. }
      rewrite lookup_app_l in Hi by lia.
      rewrite Heq, list_lookup_middle in Hj by done. injection Hj as <-.
      apply Walk_last in Hw. rewrite last_lookup in Hw.
      replace (pred (length p)) with i in Hw by lia. congruence.
Qed.

Lemma is_path_Walk s t p : is_path edges s t p → Walk edges s p t.
Proof.
  revert t. induction p as [|w p IH] using rev_ind; intros t (Hh & Hl & Hadj).
  - discriminate.
  - rewrite last_snoc in Hl. injection Hl as ->.
    destruct (last p) as [u|] eqn:Hu.
    + apply Walk_step with u.
      * apply IH. split; [|split; [done|]].
        -- destruct p; [discriminate | done].
        -- intros i a b Hi Hj. apply (Hadj i).
           ++ rewrite lookup_app_l; [done | by eapply lookup_lt_Some].
           ++ rewrite lookup_app_l; [done | by eapply lookup_lt_Some].
      * rewrite last_lookup in Hu. destruct p as [|x p']; [discriminate|].
        apply (Hadj (length p')).
        -- rewrite lookup_app_l; [done | simpl; lia].
        -- replace (S (length p')) with (length (x :: p')) by done.
           by rewrite list_lookup_middle.
    + apply last_None in Hu as ->. simpl in Hh. injection Hh as ->. constructor.
Qed.

(** *** The inner loop *)

Lemma scan_found t p ns visited queue r :
  scan t p ns visited queue = Found r → t ∈ ns ∧ r = p ++ [t].
Proof.
  revert visited queue. induction ns as [|n ns IH]; intros visited queue; simpl.
  - discriminate.
  - case_bool_decide as Hn.
    + intros [= <-]. subst. split; [left | done].
    + case_bool_decide; intros H'; apply IH in H' as [? ?];
        (split; [by right | done]).
Qed.

Lemma scan_continue t p ns visited queue visited' queue' :
  scan t p ns visited queue = Continue visited' queue' →
  t ∉ ns ∧
  ∃ added,
    queue' = queue ++ ((λ w, p ++ [w]) <$> added) ∧
    (∀ w, w ∈ visited' ↔ w ∈ visited ∨ w ∈ added) ∧
    (∀ w, w ∈ added → w ∈ ns ∧ w ∉ visited) ∧
    (∀ w, w ∈ ns → w ∈ visited').
Proof.
  revert visited queue. induction ns as [|n ns IH]; intros visited queue; simpl.
  - intros [= <- <-]. split; [apply not_elem_of_nil|]. exists [].
    split; [by rewrite app_nil_r|]. split; [set_solver|]. set_solver.
  - case_bool_decide as Hn; [discriminate|].
    case_bool_decide as Hv; intros H'; apply IH in H' as (Ht & added & -> & Hvis & Hadd & Hall).
    + split; [set_solver|]. exists added. split; [done|]. split; [done|].
      split; [set_solver|]. intros w [->|Hw]%elem_of_cons; [|by auto].
      apply Hvis. by left.
    + split; [set_solver|]. exists (n :: added). split.
      { by rewrite <- app_assoc. }
      split.
      { intros w. rewrite Hvis. set_solver. }
      split.
      { intros w [->|Hw]%elem_of_cons; [set_solver|].
        apply Hadd in Hw. set_solver. }
      intros w [->|Hw]%elem_of_cons; [|by auto].
      apply Hvis. set_solver.
Qed.

(** *** The queue discipline *)

Lemma banded_head p0 rest p :
  banded (p0 :: rest) → p ∈ rest → length p0 ≤ length p ≤ S (length p0).
Proof.
  intros (k & A & B & Heq & HA & HB) Hp.
  rewrite Forall_forall in HA, HB.
  destruct A as [|a A]; simpl in Heq.
  - subst B. rewrite (HB p0), (HB p); [lia | by right | by left].
  - injection Heq as <- ->. rewrite (HA p0) by left.
    apply elem_of_app in Hp as [Hp|Hp].
    + rewrite (HA p); [lia | by right].
    + rewrite (HB p); [lia | done].
Qed.

Lemma banded_pop_push p0 rest new :
  banded (p0 :: rest) → Forall (λ p, length p = S (length p0)) new →
  banded (rest ++ new).
Proof.
  intros (k & A & B & Heq & HA & HB) Hnew.
  destruct A as [|a A]; simpl in Heq.
  - subst B. apply Forall_cons in HB as [Hp0 HB]. rewrite Hp0 in Hnew.
    exists (S k), rest, new. done.
  - injection Heq as <- ->. apply Forall_cons in HA as [Hp0 HA].
    rewrite Hp0 in Hnew. exists k, A, (B ++ new).
    split; [by rewrite app_assoc|]. split; [done|]. by apply Forall_app.
Qed.

Lemma banded_singleton p : banded [p].
Proof. exists (length p), [p], []. repeat split; by repeat constructor. Qed.

(** *** The invariant *)

Section Invariant.
Variables s t : string.
Hypothesis Hst : s ≠ t.

Lemma Inv_init : Inv edges s t ∅ [[s]] {[s]}.
Proof.
  split.
  - intros p ->%list_elem_of_singleton. exists s.
    split; [constructor|]. split; [set_solver|].
    intros q Hq. by apply Walk_length in Hq.
  - apply banded_singleton.
  - intros v ->%elem_of_singleton. right. exists [s]. split; [by left | done].
  - set_solver.
  - set_solver.
  - set_solver.
  - intros p0 rest q v [= <- <-] Hq _. by apply Walk_length in Hq.
Qed.

(** A node that has not been visited yet is strictly farther from [s] than
    the path at the front of the queue. *)
Lemma Inv_unvisited done p0 rest visited q v :
  Inv edges s t done (p0 :: rest) visited →
  Walk edges s q v → v ∉ visited → S (length p0) ≤ length q.
Proof.
  intros HI Hq Hv. apply Walk_inv in Hq as [[-> ->]|(q' & u & -> & Hq' & Ha)].
  - destruct Hv. apply HI.
  - rewrite length_app. simpl.
    assert (u ∉ done) as Hu.
    { intros Hu. destruct (inv_done _ _ _ _ _ _ HI u v Hu Ha) as [? _]. done. }
    pose proof (inv_front _ _ _ _ _ _ HI p0 rest q' u eq_refl Hq' Hu). lia.
Qed.

Lemma Inv_step done p0 rest visited u visited' queue' :
  Inv edges s t done (p0 :: rest) visited →
  last p0 = Some u →
  scan t p0 (neighbors edges u) visited rest = Continue visited' queue' →
  Inv edges s t (done ∪ {[u]}) queue' visited'.
Proof.
  intros HI Hu Hscan.
  apply scan_continue in Hscan as (Ht & added & -> & Hvis & Hadd & Hall).
  destruct (inv_paths _ _ _ _ _ _ HI p0) as (u0 & Hw0 & Hu0 & Hmin0); [by left|].
  assert (u0 = u) as -> by (apply Walk_last in Hw0; congruence).
  assert (∀ p, p ∈ ((λ w, p0 ++ [w]) <$> added) → length p = S (length p0)) as Hlen.
  { intros p (w & -> & _)%list_elem_of_fmap. rewrite length_app. simpl. lia. }
  assert (banded (rest ++ ((λ w, p0 ++ [w]) <$> added))) as Hband.
  { eapply banded_pop_push; [apply HI|]. by apply Forall_forall. }
  assert (∀ p, p ∈ rest ++ ((λ w, p0 ++ [w]) <$> added) →
            ∃ x, Walk edges s p x ∧ x ∈ visited' ∧
                 ∀ q, Walk edges s q x → length p ≤ length q) as Hpaths.
  { intros p [Hp|Hp]%elem_of_app.
    - destruct (inv_paths _ _ _ _ _ _ HI p) as (x & ? & ? & ?); [by right|].
      exists x. split; [done|]. split; [apply Hvis; by left | done].
    - pose proof (Hlen _ Hp) as Hl.
      apply list_elem_of_fmap in Hp as (w & -> & Hw). exists w.
      destruct (Hadd _ Hw) as [Hn Hnv]. split.
      + apply Walk_step with u; [done | by apply elem_of_neighbors].
      + split; [apply Hvis; by right|]. intros q Hq. rewrite Hl.
        by eapply Inv_unvisited. }
  assert (∀ v, v ∈ visited' → v ∈ done ∪ {[u]} ∨
            ∃ p, p ∈ rest ++ ((λ w, p0 ++ [w]) <$> added) ∧ last p = Some v) as Hvisited.
  { intros v [Hv|Hv]%Hvis.
    - destruct (inv_visited _ _ _ _ _ _ HI v Hv) as [?|(p & [->|Hp]%elem_of_cons & Hl)].
      + left. set_solver.
      + left. assert (v = u) by congruence. set_solver.
      + right. exists p. split; [apply elem_of_app; by left | done].
    - right. exists (p0 ++ [v]). split; [|apply last_snoc].
      apply elem_of_app. right. apply list_elem_of_fmap. eauto. }
  split; try done.
  - intros x w [Hx| ->%elem_of_singleton]%elem_of_union Ha.
    + destruct (inv_done _ _ _ _ _ _ HI x w Hx Ha). split; [apply Hvis; by left | done].
    + apply elem_of_neighbors in Ha. split; [by apply Hall|]. by intros ->.
  - apply Hvis. left. apply HI.
  - intros [Hv|Hv]%Hvis; [by apply (inv_end _ _ _ _ _ _ HI)|].
    by apply Hadd in Hv as [? _].
  - intros p1 rest' q v Hq' Hq Hv.
    assert (v ∉ done) as Hvd by set_solver.
    pose proof (inv_front _ _ _ _ _ _ HI p0 rest q v eq_refl Hq Hvd) as Hle.
    destruct (decide (v ∈ visited')) as [Hin|Hout].
    + destruct (Hvisited v Hin) as [?|(p & Hp & Hl)]; [done|].
      destruct (Hpaths p Hp) as (x & Hwx & _ & Hmin).
      assert (x = v) as -> by (apply Walk_last in Hwx; congruence).
      specialize (Hmin q Hq). rewrite Hq' in Hp, Hband.
      apply elem_of_cons in Hp as [->|Hp]; [done|].
      pose proof (banded_head _ _ _ Hband Hp). lia.
    + assert (v ∉ visited) as Hnv by (intros ?; apply Hout, Hvis; by left).
      pose proof (Inv_unvisited _ _ _ _ _ _ HI Hq Hnv) as Hlt.
      assert (p1 ∈ rest ++ ((λ w, p0 ++ [w]) <$> added)) as Hp1 by (rewrite Hq'; left).
      apply elem_of_app in Hp1 as [Hp1|Hp1].
      * pose proof (banded_head _ _ _ (inv_banded _ _ _ _ _ _ HI) Hp1). lia.
      * rewrite (Hlen _ Hp1). done.
Qed.

(** When the queue has run empty, every node reachable from [s] is done. *)
Lemma Inv_empty_done done visited q v :
  Inv edges s t done [] visited → Walk edges s q v → v ∈ done.
Proof.
  intros HI. induction 1 as [|p u w Hw IH Ha].
  - destruct (inv_visited _ _ _ _ _ _ HI s (inv_start _ _ _ _ _ _ HI))
      as [?|(p & Hp & _)]; [done | by apply elem_of_nil in Hp].
  - destruct (inv_done _ _ _ _ _ _ HI u w IH Ha) as [Hv _].
    destruct (inv_visited _ _ _ _ _ _ HI w Hv)
      as [?|(p' & Hp & _)]; [done | by apply elem_of_nil in Hp].
Qed.

Lemma bfs_sound fuel : ∀ done queue visited r,
  Inv edges s t done queue visited →
  bfs fuel edges t queue visited = Some r →
  match r with
  | Some p => Walk edges s p t ∧ ∀ q, Walk edges s q t → length p ≤ length q
  | None => ∀ q, ¬ Walk edges s q t
  end.
Proof.
  induction fuel as [|fuel IH]; intros done queue visited r HI; simpl; [discriminate|].
  destruct queue as [|p0 rest].
  - intros [= <-] q Hq.
    apply Walk_inv in Hq as [[_ ?]|(q' & u & _ & Hq' & Ha)]; [done|].
    apply (Inv_empty_done _ _ _ _ HI) in Hq'.
    by destruct (inv_done _ _ _ _ _ _ HI u t Hq' Ha).
  - destruct (inv_paths _ _ _ _ _ _ HI p0) as (u & Hw0 & Hu & _); [by left|].
    unfold neighbors_of_last. rewrite (Walk_last _ _ _ Hw0).
    destruct (scan t p0 (neighbors edges u) visited rest) as [p|visited' queue'] eqn:Hscan.
    + intros [= <-]. apply scan_found in Hscan as [Ht ->]. split.
      * apply Walk_step with u; [done | by apply elem_of_neighbors].
      * intros q Hq. rewrite length_app. simpl.
        pose proof (Inv_unvisited _ _ _ _ _ _ HI Hq (inv_end _ _ _ _ _ _ HI)). lia.
    + intros Hr. eapply IH; [|exact Hr].
      eapply Inv_step; [exact HI | by eapply Walk_last | exact Hscan].
Qed.

End Invariant.

(** *** Termination: the fuel is never exhausted *)

Lemma size_list_to_set_le (l : list string) :
  size (list_to_set l : gset string) ≤ length l.
Proof.
  induction l as [|x l IH].
  - by rewrite list_to_set_nil, size_empty.
  - rewrite list_to_set_cons, size_union_alt, size_singleton. simpl.
    pose proof (subseteq_size (list_to_set l ∖ {[x]}) (list_to_set l : gset string)) as Hs.
    assert (list_to_set l ∖ {[x]} ⊆ (list_to_set l : gset string)) by set_solver.
    specialize (Hs ltac:(done)). lia.
Qed.

Lemma size_endpoints : size (endpoints edges) ≤ 2 * length edges.
Proof.
  unfold endpoints.
  pose proof (size_list_to_set_le (e_source <$> edges)) as H1.
  pose proof (size_list_to_set_le (e_target <$> edges)) as H2.
  rewrite length_fmap in H1, H2. rewrite size_union_alt.
  pose proof (subseteq_size
    ((list_to_set (e_target <$> edges) : gset string) ∖ list_to_set (e_source <$> edges))
    (list_to_set (e_target <$> edges))) as Hs.
  specialize (Hs ltac:(set_solver)). lia.
Qed.

Lemma neighbors_endpoints u w : w ∈ neighbors edges u → w ∈ endpoints edges.
Proof.
  intros (e & He & Hc)%elem_of_neighbors. unfold endpoints.
  apply elem_of_union. rewrite !elem_of_list_to_set, !list_elem_of_fmap.
  destruct Hc as [[_ <-]|[<- _]]; eauto.
Qed.

Lemma size_unvisited_insert (U visited : gset string) n :
  n ∈ U → n ∉ visited →
  size (U ∖ visited) = S (size (U ∖ ({[n]} ∪ visited))).
Proof.
  intros HU Hv.
  assert (U ∖ visited = {[n]} ∪ U ∖ ({[n]} ∪ visited)) as ->.
  { apply set_eq. intros x. destruct (decide (x = n)); set_solver. }
  rewrite size_union, size_singleton; [done | set_solver].
Qed.

(** The loop measure: paths waiting in the queue plus edge ends not yet
    visited.  The inner loop leaves it unchanged. *)
Lemma scan_measure t p ns visited queue visited' queue' :
  (∀ w, w ∈ ns → w ∈ endpoints edges) →
  scan t p ns visited queue = Continue visited' queue' →
  length queue' + size (endpoints edges ∖ visited')
  = length queue + size (endpoints edges ∖ visited).
Proof.
  revert visited queue. induction ns as [|n ns IH]; intros visited queue Hns; simpl.
  - by intros [= <- <-].
  - case_bool_decide; [discriminate|].
    case_bool_decide as Hv; intros Hscan; apply IH in Hscan;
      try (intros w Hw; apply Hns; by right); [done|].
    rewrite Hscan, length_app. simpl.
    rewrite (size_unvisited_insert _ visited n); [lia | apply Hns; by left | done].
Qed.

Lemma bfs_terminates t fuel : ∀ queue visited,
  length queue + size (endpoints edges ∖ visited) < fuel →
  is_Some (bfs fuel edges t queue visited).
Proof.
  induction fuel as [|fuel IH]; intros queue visited Hm; [lia|]. simpl.
  destruct queue as [|p0 rest]; [by eexists|].
  destruct (scan t p0 (neighbors_of_last edges p0) visited rest)
    as [p|visited' queue'] eqn:Hscan; [by eexists|].
  apply IH. apply scan_measure in Hscan.
  - simpl in Hm. lia.
  - unfold neighbors_of_last. destruct (last p0); [|set_solver].
    intros w. apply neighbors_endpoints.
Qed.

Lemma bfs_fuel_enough s t :
  is_Some (bfs (bfs_fuel edges) edges t [[s]] {[s]}).
Proof.
  apply bfs_terminates. unfold bfs_fuel. simpl.
  pose proof size_endpoints.
  pose proof (subseteq_size (endpoints edges ∖ {[s]}) (endpoints edges)) as Hs.
  specialize (Hs ltac:(set_solver)). lia.
Qed.

(** *** Correctness of [findShortestPath] *)

Lemma findShortestPath_Walk s t :
  match findShortestPath edges s t with
  | Some p => Walk edges s p t ∧ ∀ q, Walk edges s q t → length p ≤ length q
  | None => ∀ q, ¬ Walk edges s q t
  end.
Proof.
  unfold findShortestPath. case_bool_decide as Hst.
  - subst t. split; [constructor|]. intros q Hq. by apply Walk_length in Hq.
  - destruct (bfs_fuel_enough s t) as [r Hr]. rewrite Hr.
    eapply bfs_sound; [exact Hst | by apply Inv_init | exact Hr].
Qed.

Lemma findShortestPath_spec s t :
  match findShortestPath edges s t with
  | Some p => is_path edges s t p ∧
              ∀ q, is_path edges s t q → length p ≤ length q
  | None => ∀ q, ¬ is_path edges s t q
  end.
Proof.
  pose proof (findShortestPath_Walk s t) as H.
  destruct (findShortestPath edges s t) as [p|].
  - destruct H as [Hw Hmin]. split; [by apply Walk_is_path|].
    intros q Hq. by apply Hmin, is_path_Walk.
  - intros q Hq. by apply (H q), is_path_Walk.
Qed.

End Search.
End PathFinderProofs.


(** ** Claims about the path finder *)

Module PathClaims.
Import PathFinder PathFinderProofs.

(** C1. [findShortestPath] is a breadth-first search over the edges read as
    undirected: whenever it returns a path, the path leads from [startId] to
    [endId] along edges and no path between the two is shorter; it returns
    [null] exactly when no path exists.  On the path graph A-B-C-D-E it
    returns [[A,B,C,D,E]], [findShortestPath(a, a)] is [[a]], and for two
    nodes of different components the result is [null]. *)
Theorem findShortestPath_minimum_hop :
  (∀ (es : list Edge) (startId endId : string),
     match findShortestPath es startId endId with
     | Some p => is_path es startId endId p ∧
                 ∀ q, is_path es startId endId q → length p ≤ length q
     | None => ∀ q, ¬ is_path es startId endId q
     end) ∧
  findShortestPath path5 "A" "E" = Some ["A"; "B"; "C"; "D"; "E"] ∧
  (∀ (es : list Edge) (a : string), findShortestPath es a a = Some [a]) ∧
  (∀ (es : list Edge) (startId endId : string),
     (∀ q, ¬ is_path es startId endId q) →
     findShortestPath es startId endId = None) ∧
  findShortestPath two_components "A" "D" = None.
Proof.
  split; [exact findShortestPath_spec|].
  split; [by vm_compute|].
  split.
  { intros es a. unfold findShortestPath. by rewrite bool_decide_eq_true_2. }
  split; [|by vm_compute].
  intros es startId endId Hno.
  pose proof (findShortestPath_spec es startId endId) as H.
  destruct (findShortestPath es startId endId) as [p|]; [|done].
  destruct H as [Hp _]. by destruct (Hno p).
Qed.

(** C10. [highlightPath(a, a)] returns [false] and changes nothing, although
    [findShortestPath(a, a)] is the one-element path [[a]]: a path with
    fewer than two nodes is never displayed. *)
Theorem highlightPath_same_node (g : NetworkGraph) (a : string) :
  highlightPath g a a = (false, g) ∧
  findShortestPath (edges g) a a = Some [a].
Proof.
  unfold highlightPath, findShortestPath.
  by rewrite bool_decide_eq_true_2.
Qed.

End PathClaims.

(** ** The simulation step *)

Module SimulationProofs.
Local Open Scope R_scope.

Lemma same_but_velocity_refl n : same_but_velocity n n.
Proof. by destruct n. Qed.

Lemma same_but_velocity_add fx fy n n' :
  same_but_velocity n n' → same_but_velocity n (add_velocity fx fy n').
Proof. unfold same_but_velocity. intros ->. done. Qed.

Lemma same_but_velocity_sub fx fy n n' :
  same_but_velocity n n' → same_but_velocity n (sub_velocity fx fy n').
Proof. unfold same_but_velocity. intros ->. done. Qed.

Lemma same_but_velocity_position n n' :
  same_but_velocity n n' → n_x n' = n_x n ∧ n_y n' = n_y n.
Proof. unfold same_but_velocity. intros ->. done. Qed.

Lemma same_but_velocity_trans a b c :
  same_but_velocity a b → same_but_velocity b c → same_but_velocity a c.
Proof.
  destruct a, b, c. unfold same_but_velocity. simpl.
  intros H1 H2. injection H1 as -> -> -> -> -> -> -> -> ->.
  injection H2 as -> -> -> -> -> -> -> -> ->. done.
Qed.

Lemma kick_keeps_places (ns0 ns : list Node) i j fx fy gx gy :
  Forall2 same_but_velocity ns0 ns →
  Forall2 same_but_velocity ns0
    (alter (sub_velocity gx gy) j (alter (add_velocity fx fy) i ns)).
Proof.
  intros H. apply Forall2_alter_r.
  - apply Forall2_alter_r; [done|].
    intros. by apply same_but_velocity_add.
  - intros. by apply same_but_velocity_sub.
Qed.

Lemma repel_pair_keeps_places alpha i j ns0 ns :
  Forall2 same_but_velocity ns0 ns →
  Forall2 same_but_velocity ns0 (repel_pair alpha i j ns).
Proof.
  intros H. unfold repel_pair.
  destruct (ns !! i); [|done]. destruct (ns !! j); [|done].
  by apply kick_keeps_places.
Qed.

Lemma repulsion_keeps_places alpha ns :
  Forall2 same_but_velocity ns (repulsion alpha ns).
Proof.
  unfold repulsion. generalize (length ns) at 1 2. intros len.
  assert (Forall2 same_but_velocity ns ns) as H.
  { apply Forall_Forall2_diag, Forall_forall. intros. apply same_but_velocity_refl. }
  revert H. generalize ns at 2 4. generalize (seq 0 len).
  intros idxs. induction idxs as [|i idxs IH]; intros ns1 H; simpl; [done|].
  apply IH. revert H. generalize ns1. generalize (seq (S i) (len - S i)).
  intros js. induction js as [|j js IHj]; intros ns2 H; simpl; [done|].
  apply IHj. by apply repel_pair_keeps_places.
Qed.

Lemma attract_edge_keeps_places alpha e ns0 ns :
  Forall2 same_but_velocity ns0 ns →
  Forall2 same_but_velocity ns0 (attract_edge alpha ns e).
Proof.
  intros H. unfold attract_edge.
  destruct (find_node ns (e_source e)) as [[i source]|]; [|done].
  destruct (find_node ns (e_target e)) as [[j target]|]; [|done].
  by apply kick_keeps_places.
Qed.

Lemma attraction_keeps_places alpha es ns0 ns :
  Forall2 same_but_velocity ns0 ns →
  Forall2 same_but_velocity ns0 (attraction alpha es ns).
Proof.
  unfold attraction. revert ns.
  induction es as [|e es IH]; intros ns H; simpl; [done|].
  apply IH. by apply attract_edge_keeps_places.
Qed.

(** The two force loops change velocities only. *)
Lemma forces_keep_places alpha es ns :
  Forall2 same_but_velocity ns (attraction alpha es (repulsion alpha ns)).
Proof. apply attraction_keeps_places, repulsion_keeps_places. Qed.

Lemma integrate_in_bounds alpha n : in_bounds (integrate alpha n).
Proof.
  unfold in_bounds, integrate.
  destruct (if n_isCenter n then _ else _) as [vx vy]. simpl.
  unfold maxDist, Rmax, Rmin. repeat destruct (Rle_dec _ _); lra.
Qed.

Lemma applyForces_lookup alpha g j :
  nodes (applyForces alpha g) !! j
  = (λ n, if bool_decide (draggedNode g = Some j) then n else integrate alpha n)
      <$> attraction alpha (edges g) (repulsion alpha (nodes g)) !! j.
Proof. unfold applyForces, integration. simpl. by rewrite list_lookup_imap. Qed.

Lemma applyForces_dragged_lookup alpha g i n :
  draggedNode g = Some i → nodes g !! i = Some n →
  ∃ n', nodes (applyForces alpha g) !! i = Some n' ∧
        attraction alpha (edges g) (repulsion alpha (nodes g)) !! i = Some n' ∧
        same_but_velocity n n'.
Proof.
  intros Hd Hn. rewrite applyForces_lookup.
  pose proof (forces_keep_places alpha (edges g) (nodes g)) as Hf.
  destruct (Forall2_lookup_l _ _ _ _ _ Hf Hn) as (n' & Hn' & Hs).
  exists n'. rewrite Hn'. simpl. by rewrite bool_decide_eq_true_2.
Qed.

(** Any number of steps while [i] stays the dragged node. *)
Lemma steps_keep_dragged_place alphas : ∀ g i n,
  draggedNode g = Some i → nodes g !! i = Some n →
  let g' := fold_left (λ g0 alpha, applyForces alpha g0) alphas g in
  draggedNode g' = Some i ∧
  ∃ n', nodes g' !! i = Some n' ∧ same_but_velocity n n'.
Proof.
  induction alphas as [|alpha alphas IH]; intros g i n Hd Hn; simpl.
  - split; [done|]. exists n. split; [done | apply same_but_velocity_refl].
  - destruct (applyForces_dragged_lookup alpha g i n Hd Hn) as (n1 & Hn1 & _ & Hs1).
    destruct (IH (applyForces alpha g) i n1 Hd Hn1) as (Hd' & n' & Hn' & Hs').
    split; [done|]. exists n'. split; [done|].
    by eapply same_but_velocity_trans.
Qed.

Lemma sqrt_axis d : 0 <= d → sqrt (d * d + 0 * 0) = d.
Proof.
  intros Hd. replace (d * d + 0 * 0) with (d * d) by lra. by apply sqrt_square.
Qed.

(** The two force loops on the sample graph with ["B"] at [(-d, 0)]: what
    they leave in the object of ["B"]. *)
Lemma sample_forces_on_B (d alpha : R) :
  1 <= d →
  attraction alpha [Sample.e1]
    (repulsion alpha [Sample.nA; move_to (- d) 0 Sample.nB]) !! 1%nat
  = Some (mkNode "B" "Unknown" (Some "Account") 0 false (- d) 0
            (- (6000 / (d * d)) * alpha + (d - 100) * 0.06 * alpha) 0 24 1).
Proof.
  intros Hd. unfold attraction, repulsion. simpl.
  unfold repel_pair. simpl.
  replace (0 - - d) with d by lra. replace (0 - 0) with 0 by lra.
  rewrite (sqrt_axis d) by lra.
  destruct (Rlt_dec d 1) as [?|_]; [lra|].
  unfold attract_edge, find_node. simpl.
  replace (- d - 0) with (- d) by lra. replace (0 - 0) with 0 by lra.
  replace (- d * - d) with (d * d) by lra.
  rewrite (sqrt_axis d) by lra.
  rewrite Rmax_right by lra.
  unfold targetDist_of, repulsionStrength, attractionStrength. simpl.
  unfold sub_velocity, move_to, Sample.nB. simpl.
  replace 1.0 with 1 by lra. replace 0.06 with (6 / 100) by lra.
  f_equal. f_equal; field; lra.
Qed.

End SimulationProofs.

Module SimulationClaims.
Import SimulationProofs Sample.
Local Open Scope R_scope.

(** C9. After a simulation step every node that is not the dragged one has
    its position inside the square [|x| <= 500], [|y| <= 500]. *)
Theorem applyForces_clamps (alpha : R) (g : NetworkGraph) (j : nat) (n' : Node) :
  nodes (applyForces alpha g) !! j = Some n' →
  draggedNode g ≠ Some j →
  in_bounds n'.
Proof.
  rewrite applyForces_lookup. intros Hn Hd.
  destruct (attraction alpha (edges g) (repulsion alpha (nodes g)) !! j) as [n|];
    [|discriminate].
  simpl in Hn. rewrite bool_decide_eq_false_2 in Hn by done.
  injection Hn as <-. apply integrate_in_bounds.
Qed.

Lemma applyForces_clamps_witness :
  in_bounds (integrate (149 / 150) nA).
Proof.
  apply (applyForces_clamps (149 / 150) (rendered [nA] []) 0%nat).
  - reflexivity.
  - discriminate.
Defined.

(** C5 (what the code does to the node that is held).  The test
    [node === this.draggedNode] stands in the last loop of [applyForces]
    only; the repulsion loop and the edge loop add to the velocity of the
    held node as to any other.  ["B"] is held at rest at [(-180, 0)]; after
    one step with [alpha = 149/150] its [vx] is [92827/20250], about [4.58],
    where the claim has it unmodified. *)
Lemma applyForces_moves_dragged_velocity :
  draggedNode (mousedown_node g0 "B") = Some 1%nat ∧
  n_vx <$> nodes (mousedown_node g0 "B") !! 1%nat = Some 0 ∧
  n_vx <$> nodes (applyForces (149 / 150) (mousedown_node g0 "B")) !! 1%nat
    = Some (92827 / 20250) ∧
  92827 / 20250 ≠ 0.
Proof.
  split; [reflexivity|]. split; [reflexivity|]. split; [|lra].
  destruct (applyForces_dragged_lookup (149 / 150) (mousedown_node g0 "B") 1%nat nB
              eq_refl eq_refl) as (n' & -> & Hf & _).
  assert (Some n' = Some (mkNode "B" "Unknown" (Some "Account") 0 false (- 180) 0
            (- (6000 / (180 * 180)) * (149 / 150) + (180 - 100) * 0.06 * (149 / 150))
            0 24 1)) as [= ->].
  { rewrite <- Hf. apply (sample_forces_on_B 180). lra. }
  simpl. f_equal. lra.
Qed.

(** C4 (what the code does at the release).  ["B"] is grabbed, dragged to
    [(-300, 0)], one step of the running simulation passes
    ([alpha = 1 - 1/150]), and the button is released: ["B"] is still at
    [(-300, 0)], but its [vx] is [26671/2250], about [11.85], where the
    claim has it at zero.  The velocity is the one the two force loops have
    built up while the node was held, and [mouseup] does not reset it. *)
Lemma drag_release_velocity_not_zero :
  let g1 := mousedown_node (set_running true g0) "B" in
  let g2 := mousemove g1 (mkRect 0 0 1000 800) 200 400 in
  let g3 := (tick 0 g2).1 in
  let g4 := mouseup g3 in
  draggedNode g1 = Some 1%nat ∧
  draggedNode g4 = None ∧
  (∃ n4, nodes g4 !! 1%nat = Some n4 ∧
         n_x n4 = -300 ∧ n_y n4 = 0 ∧ n_vx n4 = 26671 / 2250) ∧
  26671 / 2250 ≠ 0.
Proof.
  split; [reflexivity|]. split; [reflexivity|]. split; [|lra].
  set (g2 := mousemove (mousedown_node (set_running true g0) "B")
               (mkRect 0 0 1000 800) 200 400).
  change (tick 0 g2).1 with (applyForces (1 - INR 1 / INR maxSteps) g2).
  assert (1 - INR 1 / INR maxSteps = 149 / 150) as ->.
  { unfold maxSteps. rewrite (INR_IZR_INZ 150), (INR_IZR_INZ 1).
    change (Z.of_nat 150) with 150%Z. change (Z.of_nat 1) with 1%Z. lra. }
  assert (nodes g2 = [nA; move_to (- 300) 0 nB]) as Hns.
  { unfold g2, mousemove, svg_point. simpl. f_equal. f_equal.
    unfold move_to. f_equal; field. }
  destruct (applyForces_dragged_lookup (149 / 150) g2 1%nat
              (move_to (- 300) 0 nB)) as (n' & Hn' & Hf & _).
  { reflexivity. }
  { by rewrite Hns. }
  rewrite Hns in Hf.
  assert (Some n' = Some (mkNode "B" "Unknown" (Some "Account") 0 false (- 300) 0
            (- (6000 / (300 * 300)) * (149 / 150) + (300 - 100) * 0.06 * (149 / 150))
            0 24 1)) as [= ->].
  { rewrite <- Hf. apply (sample_forces_on_B 300). lra. }
  eexists. split; [exact Hn'|]. simpl.
  split; [lra|]. split; [done|]. lra.
Qed.

End SimulationClaims.

(** ** The graph model *)

Module ModelClaims.
Import Sample.

Lemma find_node_unknown (ns : list Node) (id : string) :
  id ∉ n_id <$> ns → find_node ns id = None.
Proof.
  intros Hid. apply list_find_None, Forall_forall. intros n Hn Heq.
  apply Hid, list_elem_of_fmap. eauto.
Qed.

Lemma parseData_node_ids data random :
  n_id <$> (parseData data random).1 = nr_id <$> or_nil (d_nodes data).
Proof.
  unfold parseData. simpl. apply list_eq. intros i.
  rewrite !list_lookup_fmap, list_lookup_imap.
  by destruct (or_nil (d_nodes data) !! i).
Qed.

(** The sample objects are what [parseData] builds from the sample
    payload. *)
Lemma parseData_sample : parseData data draws = ([nA; nB], [e1]).
Proof.
  unfold parseData, data, draws. simpl. f_equal.
  unfold parse_node. simpl.
  assert (Int_part (0 * 2) = 0%Z) as ->.
  { symmetry. apply Int_part_spec. simpl. lra. }
  replace (1 / (1 + 1) * 2 * PI)%R with PI by field.
  rewrite cos_PI, sin_PI.
  replace (-1 * (180 * (0 + 1) + (0.5 - 0.5) * 40))%R with (-180)%R by lra.
  replace (0 * (180 * (0 + 1) + (0.5 - 0.5) * 40))%R with 0%R by lra.
  assert (Int_part (sqrt (-180 * -180 + 0 * 0) / 180) = 1%Z) as ->.
  { symmetry. apply Int_part_spec.
    replace (-180 * -180 + 0 * 0)%R with (180 * 180)%R by lra.
    rewrite sqrt_square by lra. simpl. lra. }
  reflexivity.
Qed.

(** C3 as stated fails: an edge whose target is not a node is accepted.  The
    payload has the single node ["A"] and a relationship from ["A"] to
    ["Z"]; [parseData] stores the edge and signals nothing. *)
Lemma parseData_accepts_dangling_edge :
  (parseData dangling_data draws).2 = [mkEdge "e1" "A" "Z" "Related" "Medium"] ∧
  n_id <$> (parseData dangling_data draws).1 = ["A"] ∧
  "Z" ∉ n_id <$> (parseData dangling_data draws).1.
Proof.
  split; [reflexivity|]. split; [reflexivity|].
  change (n_id <$> (parseData dangling_data draws).1) with ["A"].
  intros H%list_elem_of_singleton. discriminate.
Qed.

(** C3, as the code has it.  [parseData] has no failure: the nodes come
    from the node records alone, and every relationship record becomes an
    edge with its ids, whether or not they name a node.  An edge with an end
    that is not a node stays in the edge list; it gets no SVG element and
    the attraction loop passes over it. *)
Theorem parseData_keeps_every_relationship (data : GraphData) (random : nat → R * R) :
  n_id <$> (parseData data random).1 = nr_id <$> or_nil (d_nodes data) ∧
  Forall2 (λ rel e, e_id e = rr_id rel ∧
                    e_source e = rr_sourceEntityId rel ∧
                    e_target e = rr_targetEntityId rel)
          (or_nil (relationships data)) (parseData data random).2 ∧
  ∀ e, e ∈ (parseData data random).2 →
       e_source e ∉ n_id <$> (parseData data random).1 ∨
       e_target e ∉ n_id <$> (parseData data random).1 →
       render_edge (parseData data random).1 e = None ∧
       ∀ alpha ns, n_id <$> ns = n_id <$> (parseData data random).1 →
                   attract_edge alpha ns e = ns.
Proof.
  split; [apply parseData_node_ids|]. split.
  - unfold parseData. simpl. apply Forall2_fmap_r, Forall_Forall2_diag, Forall_forall.
    by intros rel _.
  - intros e _ Hd. split.
    + unfold render_edge. destruct Hd as [Hd|Hd]; rewrite (find_node_unknown _ _ Hd);
        [done | by destruct (find_node _ _)].
    + intros alpha ns Hids. unfold attract_edge. rewrite <- Hids in Hd.
      destruct Hd as [Hd|Hd]; rewrite (find_node_unknown _ _ Hd);
        [done | by destruct (find_node _ _) as [[??]|]].
Qed.

End ModelClaims.

(** ** The viewport *)

Module ViewportClaims.
Import Sample.
Local Open Scope R_scope.

Lemma zoomIn_zoom g : zoom (zoomIn g) = Rmax 0.5 (zoom g - 0.1).
Proof. reflexivity. Qed.

Lemma zoomOut_zoom g : zoom (zoomOut g) = Rmin 2 (zoom g + 0.1).
Proof. reflexivity. Qed.

Lemma zoomed_viewBox z g :
  viewBox (zoomed z g)
  = mkViewBox (- (1000 * z) / 2) (- (800 * z) / 2) (1000 * z) (800 * z).
Proof. reflexivity. Qed.

(** C8 as stated fails.  On the sample graph panned by 100 units, [zoomIn]
    moves the centre of the viewport from [x = 100] back to [x = 0]; no
    point of the view keeps its model coordinate; and the width goes
    [1000], [900], [800], which is no fixed ratio. *)
Lemma zoomIn_not_anchored :
  vb_x (viewBox panned) + vb_width (viewBox panned) / 2 = 100 ∧
  vb_x (viewBox (zoomIn panned)) + vb_width (viewBox (zoomIn panned)) / 2 = 0 ∧
  (∀ u, 0 <= u <= 1 →
     vb_x (viewBox panned) + u * vb_width (viewBox panned)
     ≠ vb_x (viewBox (zoomIn panned)) + u * vb_width (viewBox (zoomIn panned))) ∧
  vb_width (viewBox (zoomIn panned)) / vb_width (viewBox panned) = 9 / 10 ∧
  vb_width (viewBox (zoomIn (zoomIn panned))) / vb_width (viewBox (zoomIn panned))
    = 8 / 9.
Proof.
  assert (zoom (zoomIn panned) = 0.9) as Hz1.
  { rewrite zoomIn_zoom. simpl. rewrite Rmax_right; lra. }
  assert (zoom (zoomIn (zoomIn panned)) = 0.8) as Hz2.
  { rewrite zoomIn_zoom, Hz1. rewrite Rmax_right; lra. }
  assert (viewBox (zoomIn panned) = mkViewBox (- (1000 * 0.9) / 2)
            (- (800 * 0.9) / 2) (1000 * 0.9) (800 * 0.9)) as ->.
  { rewrite <- Hz1. reflexivity. }
  assert (viewBox (zoomIn (zoomIn panned)) = mkViewBox (- (1000 * 0.8) / 2)
            (- (800 * 0.8) / 2) (1000 * 0.8) (800 * 0.8)) as ->.
  { rewrite <- Hz2. reflexivity. }
  simpl. repeat split; try lra. intros u Hu. lra.
Qed.

(** C8, as the code has it.  [zoomIn] and [zoomOut] move the zoom scalar by
    the additive step [0.1], clamped below by [0.5] and above by [2]; the
    viewport becomes [1000 * zoom] wide and [800 * zoom] high and is centred
    on the model origin, whatever its origin was before. *)
Theorem zoom_steps_and_recentres (g : NetworkGraph) :
  zoom (zoomIn g) = Rmax 0.5 (zoom g - 0.1) ∧
  zoom (zoomOut g) = Rmin 2 (zoom g + 0.1) ∧
  (0.5 <= zoom g <= 2 →
     0.5 <= zoom (zoomIn g) <= 2 ∧ 0.5 <= zoom (zoomOut g) <= 2) ∧
  (∀ g', g' = zoomIn g ∨ g' = zoomOut g →
     vb_width (viewBox g') = 1000 * zoom g' ∧
     vb_height (viewBox g') = 800 * zoom g' ∧
     vb_x (viewBox g') + vb_width (viewBox g') / 2 = 0 ∧
     vb_y (viewBox g') + vb_height (viewBox g') / 2 = 0).
Proof.
  split; [reflexivity|]. split; [reflexivity|]. split.
  - intros Hz. rewrite zoomIn_zoom, zoomOut_zoom. unfold Rmax, Rmin.
    repeat destruct (Rle_dec _ _); lra.
  - intros g' [->| ->]; unfold zoomIn, zoomOut; rewrite zoomed_viewBox; simpl;
      repeat split; lra.
Qed.

End ViewportClaims.

(** ** The simulation loop *)

Module SchedulerProofs.
Local Open Scope nat_scope.

Lemma tick_running k g :
  simulationRunning g = true → k < maxSteps →
  tick k g = (applyForces (1 - INR (S k) / INR maxSteps) g, Some (S k)).
Proof.
  intros Hr Hk. unfold tick. rewrite Hr.
  destruct (maxSteps <=? k) eqn:E; [apply Nat.leb_le in E; lia | done].
Qed.

Lemma tick_stopped k g :
  simulationRunning g = false ∨ maxSteps ≤ k →
  tick k g = (set_running false g, None).
Proof.
  intros H. unfold tick.
  destruct (simulationRunning g); [|done].
  destruct H as [?|H]; [done|].
  destruct (maxSteps <=? k) eqn:E; [done | apply Nat.leb_gt in E; lia].
Qed.

Lemma set_running_same g :
  simulationRunning g = false → set_running false g = g.
Proof. destruct g. simpl. by intros ->. Qed.

Lemma steps_applied_running k g :
  simulationRunning (steps_applied k g) = simulationRunning g.
Proof. induction k as [|k IH]; [done | exact IH]. Qed.

Lemma frame_idle g : frame (mkPage g []) = mkPage g [].
Proof. reflexivity. Qed.

Lemma frames_idle n g : frames n (mkPage g []) = mkPage g [].
Proof. induction n as [|n IH]; [done | exact IH]. Qed.

Lemma frame_single k g :
  frame (mkPage g [k]) = mkPage (tick k g).1 (option_list (tick k g).2).
Proof. unfold frame, run_callback. simpl. by destruct (tick k g). Qed.

(** [n] more frames of a run that has made [k] steps. *)
Lemma frames_run n : ∀ k g,
  simulationRunning g = true → n + k ≤ maxSteps →
  frames n (mkPage (steps_applied k g) [k])
  = mkPage (steps_applied (n + k) g) [n + k].
Proof.
  induction n as [|n IH]; intros k g Hr Hk; [done|].
  simpl frames. rewrite frame_single, tick_running;
    [|by rewrite steps_applied_running | lia].
  simpl. change (applyForces _ (steps_applied k g)) with (steps_applied (S k) g).
  rewrite (IH (S k) g Hr) by lia. by replace (n + S k) with (S (n + k)) by lia.
Qed.

Lemma run_callback_eq g acc c :
  run_callback (g, acc) c = ((tick c g).1, acc ++ option_list (tick c g).2).
Proof. unfold run_callback. simpl. by destruct (tick c g). Qed.

(** One frame over any list of scheduled closures. *)
Lemma frame_spec cs : ∀ g acc,
  ∃ g' new,
    fold_left run_callback cs (g, acc) = (g', acc ++ new) ∧
    Forall (λ c', ∃ c, c ∈ cs ∧ c' = S c ∧ c < maxSteps) new ∧
    (simulationRunning g = false → g' = g ∧ new = []) ∧
    (cs ≠ [] → new = [] → simulationRunning g' = false).
Proof.
  induction cs as [|c cs IH]; intros g acc.
  - exists g, []. simpl. rewrite app_nil_r. by repeat split.
  - cbn [fold_left]. rewrite run_callback_eq.
    destruct (simulationRunning g) eqn:Hr.
    + destruct (decide (c < maxSteps)) as [Hc|Hc].
      * rewrite tick_running by done. cbn [fst snd].
        change (option_list (Some (S c))) with [S c].
        destruct (IH (applyForces (1 - INR (S c) / INR maxSteps) g) (acc ++ [S c]))
          as (g' & new & Heq & Hnew & _ & _).
        exists g', (S c :: new). rewrite Heq. split; [by rewrite <- app_assoc|].
        split; [|by split]. constructor.
        -- exists c. split; [left | done].
        -- eapply Forall_impl; [exact Hnew|]. intros c' (c0 & ? & ? & ?).
           exists c0. split; [by right | done].
      * rewrite tick_stopped by (right; lia). cbn [fst snd].
        change (option_list None) with (@nil nat). rewrite app_nil_r.
        destruct (IH (set_running false g) acc) as (g' & new & Heq & _ & Hstop & _).
        destruct (Hstop eq_refl) as [-> ->].
        exists (set_running false g), []. rewrite Heq. by repeat split.
    + rewrite tick_stopped by (by left). cbn [fst snd].
      change (option_list None) with (@nil nat).
      rewrite app_nil_r, set_running_same by done.
      destruct (IH g acc) as (g' & new & Heq & _ & Hstop & _).
      destruct (Hstop Hr) as [-> ->].
      exists g, []. rewrite Heq. by repeat split.
Qed.

Lemma frame_scheduled p :
  Forall (λ c', ∃ c, c ∈ scheduled p ∧ c' = S c ∧ c < maxSteps)
         (scheduled (frame p)) ∧
  (simulationRunning (graph p) = false →
     graph (frame p) = graph p ∧ scheduled (frame p) = []) ∧
  (scheduled p ≠ [] → scheduled (frame p) = [] →
     simulationRunning (graph (frame p)) = false).
Proof.
  unfold frame.
  destruct (frame_spec (scheduled p) (graph p) []) as (g' & new & -> & H1 & H2 & H3).
  by simpl.
Qed.

(** After [k] frames every closure still scheduled has counted at least
    [k] steps and at most [maxSteps]. *)
Lemma frames_counters k : ∀ p,
  0 < k →
  Forall (λ c, k ≤ c ≤ maxSteps) (scheduled (frames k p)).
Proof.
  induction k as [|k IH] using nat_ind; intros p Hk; [lia|].
  destruct k as [|k].
  - simpl. destruct (frame_scheduled p) as [H _].
    eapply Forall_impl; [exact H|]. intros c' (c & _ & -> & ?). lia.
  - assert (frames (S (S k)) p = frame (frames (S k) p)) as ->.
    { clear. revert p. induction (S k) as [|n IHn]; intros p; [done|].
      simpl. by rewrite <- IHn. }
    specialize (IH p ltac:(lia)). rewrite Forall_forall in IH.
    destruct (frame_scheduled (frames (S k) p)) as [H _].
    eapply Forall_impl; [exact H|]. intros c' (c & Hc & -> & ?).
    specialize (IH c Hc). lia.
Qed.

Lemma frames_keep_idle k : ∀ p,
  scheduled p ≠ [] ∨ simulationRunning (graph p) = false →
  scheduled (frames k p) ≠ [] ∨ simulationRunning (graph (frames k p)) = false.
Proof.
  induction k as [|k IH]; intros p HJ; [done|]. simpl. apply IH.
  destruct (frame_scheduled p) as (_ & Hstop & Hlast).
  destruct (scheduled (frame p)) eqn:Hs; [|by left]. right.
  destruct HJ as [Hne|Hr]; [by apply Hlast|].
  destruct (Hstop Hr) as [-> _]. done.
Qed.

End SchedulerProofs.

Module SchedulerClaims.
Import SchedulerProofs.
Local Open Scope nat_scope.

(** C6. A run started by [startSimulation] makes one step per frame for 150
    frames and no more: the next frame only clears [simulationRunning], and
    nothing is scheduled afterwards.  From any state whatever, nothing is
    scheduled after 151 frames and the flag is cleared; and once [destroy]
    has run, the next frame makes no step and leaves nothing scheduled. *)
Theorem simulation_stops_after_maxSteps :
  (∀ (g : NetworkGraph) (n : nat),
     frames n (startSimulation (mkPage g []))
     = if n <=? maxSteps
       then mkPage (steps_applied n (set_running true g)) [n]
       else mkPage (set_running false (steps_applied maxSteps (set_running true g))) []) ∧
  (∀ p : Page,
     scheduled (frames (S maxSteps) p) = [] ∧
     (scheduled p ≠ [] →
        simulationRunning (graph (frames (S maxSteps) p)) = false)) ∧
  (∀ p : Page,
     frame (destroy p) = mkPage (set_running false (graph p)) []).
Proof.
  split; [|split].
  - intros g n.
    change (startSimulation (mkPage g []))
      with (mkPage (steps_applied 0 (set_running true g)) [0]).
    destruct (n <=? maxSteps) eqn:Hn.
    + apply Nat.leb_le in Hn.
      rewrite (frames_run n 0 (set_running true g)) by (done || lia).
      by rewrite Nat.add_0_r.
    + apply Nat.leb_gt in Hn.
      replace n with ((n - S maxSteps) + S maxSteps) by lia.
      generalize (n - S maxSteps). intros m.
      assert (∀ a b q, frames (a + b) q = frames a (frames b q)) as Hadd.
      { intros a b. induction b as [|b IHb]; intros q.
        - by rewrite Nat.add_0_r.
        - replace (a + S b) with (S (a + b)) by lia. simpl. apply IHb. }
      rewrite Hadd.
      assert (∀ q, frames (S maxSteps) q = frame (frames maxSteps q)) as ->.
      { intros q. replace (S maxSteps) with (1 + maxSteps) by done.
        by rewrite Hadd. }
      rewrite (frames_run maxSteps 0 (set_running true g)) by (done || lia).
      rewrite Nat.add_0_r, frame_single, tick_stopped by (right; lia).
      apply frames_idle.
  - intros p. assert (scheduled (frames (S maxSteps) p) = []) as He.
    { pose proof (frames_counters (S maxSteps) p ltac:(lia)) as H.
      destruct (scheduled (frames (S maxSteps) p)) as [|c cs]; [done|].
      apply Forall_cons in H as [H _]. lia. }
    split; [done|]. intros Hne.
    destruct (frames_keep_idle (S maxSteps) p (or_introl Hne)) as [?|?]; done.
  - intros p. destruct (frame_scheduled (destroy p)) as (_ & Hstop & _).
    destruct (Hstop eq_refl) as [Hg Hs].
    destruct (frame (destroy p)) as [g' cs]. simpl in *. by subst.
Qed.

End SchedulerClaims.

(** ** The highlight state *)

Module HighlightProofs.



(** *** Nodes *)






(** *** Edges *)







(** *** The whole call *)

Lemma highlighted_nodesGroup path g :
  nodesGroup (highlighted path g)
  = highlight_nodes path (clear_node_group (nodes g) <$> nodesGroup g).
Proof. reflexivity. Qed.


Lemma highlightPath_of_path g a b path :
  PathFinder.findShortestPath (edges g) a b = Some path → 2 ≤ length path →
  highlightPath g a b = (true, highlighted path g).
Proof.
  intros Hp Hlen. unfold highlightPath. rewrite Hp.
  by rewrite (proj2 (Nat.ltb_ge (length path) 2) Hlen).
Qed.





(** *** Ids inside selectors *)



End HighlightProofs.

Module HighlightClaims.
Import HighlightProofs Sample.

(** C2 (what the code does at a [Strong] edge).  After [highlightPath] and
    [clearPathHighlight] on the rendered sample graph the line of the edge
    has the colour and width of a [Medium] edge, not those it was rendered
    with; the main circle of ["A"] has lost its shadow filter, and the first
    circle of ["B"], its layer ring, carries the stroke of a main circle. *)
Theorem clearPathHighlight_does_not_restore :
  let g1 := (highlightPath g0 "A" "B").2 in
  let g2 := (clearPathHighlight g1).2 in
  (highlightPath g0 "A" "B").1 = true ∧
  eg_line <$> edgesGroup g0 = [mkLine false "#475569" 3 None 0] ∧
  eg_line <$> edgesGroup g2 = [mkLine false "#94a3b8" 2 None 0] ∧
  ngr_first <$> nodesGroup g0
    = [mkCircle "#1e40af" 4 (Some shadow); mkCircle "#e2e8f0" 1 None] ∧
  ngr_first <$> nodesGroup g2
    = [mkCircle "#1e40af" 4 None; mkCircle "#fff" 2 None].
Proof. by vm_compute. Qed.


(** The reset inside a second [highlightPath] is the one of
    [clearPathHighlight]: in the graph A-B-C, after the path from ["A"] to
    ["B"] and then the path from ["B"] to ["C"], the line of the [Strong]
    edge [e1] is no longer highlighted and has the colour and the width of a
    [Medium] edge, not those it was rendered with. *)
Example highlightPath_resets_to_medium :
  let g1 := (highlightPath g3 "A" "B").2 in
  let g2 := (highlightPath g1 "B" "C").2 in
  (highlightPath g1 "B" "C").1 = true ∧
  eg_line <$> edgesGroup g3
    = [mkLine false "#475569" 3 None 0; mkLine false "#cbd5e1" 1 None 0] ∧
  eg_line <$> edgesGroup g2
    = [mkLine false "#94a3b8" 2 None 0; mkLine true "#3b82f6" 4 None 1].
Proof. by vm_compute. Qed.


Lemma g3_selector_safe : selector_safe_graph g3.
Proof. unfold selector_safe_graph. simpl. repeat constructor. Qed.



End HighlightClaims.

(** * Further properties of the code *)

(** ** The path finder and [highlightPath] *)

Module PathExtras.
Import PathFinder PathFinderProofs.

Lemma adjacent_sym es a b : adjacent es a b → adjacent es b a.
Proof. intros (e & He & Hc). exists e. split; [done|]. tauto. Qed.

Lemma is_path_reverse es s t p : is_path es s t p → is_path es t s (reverse p).
Proof.
  intros (Hh & Hl & Hadj). split; [by rewrite head_reverse|].
  split; [by rewrite last_reverse|].
  intros i a b Hi Hj.
  assert (S i < length p) as Hlt.
  { apply lookup_lt_Some in Hj. by rewrite length_reverse in Hj. }
  rewrite reverse_lookup in Hi by lia. rewrite reverse_lookup in Hj by lia.
  apply adjacent_sym, (Hadj (length p - S (S i))); [done|].
  by replace (S (length p - S (S i))) with (length p - S i) by lia.
Qed.

Lemma is_path_two es a b p : is_path es a b p → a ≠ b → 2 ≤ length p.
Proof.
  intros (Hh & Hl & _) Hab. destruct p as [|x [|y p]]; simpl in *; [done| |lia].
  congruence.
Qed.

(** X1.  The search is symmetric in its two ends: it finds a path from [a] to
    [b] exactly when it finds one from [b] to [a], and the two paths have
    the same number of nodes. *)
Theorem findShortestPath_symmetric (es : list Edge) (a b : string) :
  match findShortestPath es a b, findShortestPath es b a with
  | Some p, Some q => length p = length q
  | None, None => True
  | _, _ => False
  end.
Proof.
  pose proof (findShortestPath_spec es a b) as Hab.
  pose proof (findShortestPath_spec es b a) as Hba.
  destruct (findShortestPath es a b) as [p|], (findShortestPath es b a) as [q|].
  - destruct Hab as [Hp Hpmin], Hba as [Hq Hqmin].
    pose proof (Hpmin _ (is_path_reverse _ _ _ _ Hq)) as H1.
    pose proof (Hqmin _ (is_path_reverse _ _ _ _ Hp)) as H2.
    rewrite length_reverse in H1, H2. lia.
  - destruct Hab as [Hp _]. exact (Hba _ (is_path_reverse _ _ _ _ Hp)).
  - destruct Hba as [Hq _]. exact (Hab _ (is_path_reverse _ _ _ _ Hq)).
  - done.
Qed.

(** X2.  A path the search returns visits no node twice. *)
Theorem findShortestPath_simple (es : list Edge) (a b : string) (p : list string) :
  findShortestPath es a b = Some p → NoDup p.
Proof.
  intros Hp. pose proof (findShortestPath_spec es a b) as H. rewrite Hp in H.
  destruct H as [(Hh & Hl & Hadj) Hmin].
  apply NoDup_alt. intros i j x Hi Hj.
  destruct (decide (i = j)) as [|Hne]; [done|]. exfalso.
  assert (∀ i j, i < j → p !! i = Some x → p !! j = Some x → False) as Hcut.
  { clear i j Hi Hj Hne. intros i j Hlt Hi Hj.
    pose proof (lookup_lt_Some _ _ _ Hj) as Hjl.
    assert (is_path es a b (take (S i) p ++ drop (S j) p)) as Hq.
    { split; [|split].
      - destruct p; [done|]. done.
      - rewrite last_lookup in Hl. rewrite last_lookup.
        rewrite length_app, length_take, length_drop, Nat.min_l by lia.
        destruct (decide (S j = length p)) as [Heq|Hneq].
        + replace (pred (S i + (length p - S j))) with i by lia.
          rewrite lookup_app_l by (rewrite length_take; lia).
          rewrite lookup_take_lt by lia.
          replace (pred (length p)) with j in Hl by lia. congruence.
        + rewrite lookup_app_r by (rewrite length_take; lia).
          rewrite length_take, Nat.min_l, lookup_drop by lia.
          by replace (S j + (pred (S i + (length p - S j)) - S i))
            with (pred (length p)) by lia.
      - intros k u v Hk Hk'.
        assert (length (take (S i) p) = S i) as Hlen
          by (rewrite length_take; lia).
        destruct (decide (S k < S i)) as [Hin|Hout].
        + rewrite lookup_app_l, lookup_take_lt in Hk by lia.
          rewrite lookup_app_l, lookup_take_lt in Hk' by lia. eauto.
        + destruct (decide (k = i)) as [->|Hki].
          * rewrite lookup_app_l, lookup_take_lt in Hk by lia.
            rewrite lookup_app_r, Hlen, lookup_drop in Hk' by lia.
            replace (S j + (S i - S i)) with (S j) in Hk' by lia.
            assert (u = x) as -> by congruence. eauto.
          * rewrite lookup_app_r, Hlen, lookup_drop in Hk by lia.
            rewrite lookup_app_r, Hlen, lookup_drop in Hk' by lia.
            apply (Hadj (S j + (k - S i))); [done|].
            by replace (S (S j + (k - S i))) with (S j + (S k - S i)) by lia. }
    specialize (Hmin _ Hq). rewrite length_app, length_take, length_drop in Hmin. lia. }
  destruct (decide (i < j)); [by eapply (Hcut i j) | eapply (Hcut j i); [lia|done..]].
Qed.


Lemma findShortestPath_simple_witness : NoDup ["A"; "B"; "C"; "D"; "E"].
Proof.
  apply (findShortestPath_simple path5 "A" "E"). by vm_compute.
Defined.

(** X3.  In a graph whose edge ids and edge ends are [selector_safe],
    [highlightPath] returns [true] exactly when the two ids differ and a
    path joins them; whenever it returns [false] the object is left as it
    was, a highlight shown before included. *)
Theorem highlightPath_succeeds_iff (g : NetworkGraph) (a b : string) :
  selector_safe_graph g →
  ((highlightPath g a b).1 = true ↔ a ≠ b ∧ ∃ q, is_path (edges g) a b q) ∧
  ((highlightPath g a b).1 = false → (highlightPath g a b).2 = g).
Proof.
  intros _.
  pose proof (findShortestPath_spec (edges g) a b) as Hs.
  unfold highlightPath.
  destruct (findShortestPath (edges g) a b) as [p|] eqn:Hp.
  - destruct Hs as [Hpath Hmin].
    destruct (length p <? 2) eqn:Hlen; simpl.
    + split; [|done]. split; [done|]. intros [Hab _].
      apply Nat.ltb_lt in Hlen. pose proof (is_path_two _ _ _ _ Hpath Hab). lia.
    + split; [|done]. split; [|done]. intros _. split; [|eauto].
      intros ->. unfold findShortestPath in Hp.
      rewrite bool_decide_eq_true_2 in Hp by done. injection Hp as <-. done.
  - simpl. split; [|done]. split; [done|]. intros [_ [q Hq]]. by destruct (Hs q).
Qed.

Lemma highlightPath_succeeds_iff_witness :
  selector_safe_graph Sample.g3 ∧
  ((highlightPath Sample.g3 "A" "C").1 = true
   ↔ "A" ≠ "C" ∧ ∃ q, is_path (edges Sample.g3) "A" "C" q) ∧
  ((highlightPath Sample.g3 "A" "C").1 = false
   → (highlightPath Sample.g3 "A" "C").2 = Sample.g3).
Proof.
  split; [exact HighlightClaims.g3_selector_safe|].
  exact (highlightPath_succeeds_iff Sample.g3 "A" "C" HighlightClaims.g3_selector_safe).
Defined.

End PathExtras.

(** ** Rendering and the highlight state *)

Module RenderExtras.
Import Sample.

Lemma find_node_is_Some (ns : list Node) (id : string) :
  is_Some (find_node ns id) ↔ id ∈ n_id <$> ns.
Proof.
  unfold find_node. split.
  - intros [[i n] (Hi & Hn & _)%list_find_Some].
    apply list_elem_of_fmap. exists n. split; [done|].
    by eapply list_elem_of_lookup_2.
  - intros (n & -> & Hn)%list_elem_of_fmap.
    by apply (list_find_elem_of _ _ n).
Qed.

Lemma renderEdges_ids ns es :
  eg_edgeId <$> renderEdges ns es
  = e_id <$> filter (λ e, e_source e ∈ n_id <$> ns ∧ e_target e ∈ n_id <$> ns) es.
Proof.
  unfold renderEdges. induction es as [|e es IH]; [done|].
  rewrite filter_cons.
  pose proof (find_node_is_Some ns (e_source e)) as Hs.
  pose proof (find_node_is_Some ns (e_target e)) as Ht.
  assert (omap (render_edge ns) (e :: es)
          = from_option (λ eg, [eg]) [] (render_edge ns e) ++ omap (render_edge ns) es)
    as -> by (simpl; by destruct (render_edge ns e)).
  rewrite fmap_app, IH. unfold render_edge.
  destruct (decide (e_source e ∈ n_id <$> ns ∧ e_target e ∈ n_id <$> ns)) as [[H1 H2]|Hd].
  - apply Hs in H1 as [? ->]. apply Ht in H2 as [? ->]. done.
  - destruct (find_node ns (e_source e)) as [?|]; [|done].
    destruct (find_node ns (e_target e)) as [?|]; [|done].
    destruct Hd. split; [apply Hs | apply Ht]; eauto.
Qed.

(** X4.  [render()] draws one group per node and one group for exactly the
    edges whose two ends are nodes, in order; when no node id and no edge id
    occurs twice, the elements are in step with the model. *)
Theorem rendered_in_step (ns : list Node) (es : list Edge) :
  NoDup (n_id <$> ns) →
  NoDup (e_id <$> es) →
  ngr_nodeId <$> nodesGroup (rendered ns es) = n_id <$> ns ∧
  eg_edgeId <$> edgesGroup (rendered ns es)
    = e_id <$> filter (λ e, e_source e ∈ n_id <$> ns ∧ e_target e ∈ n_id <$> ns) es ∧
  well_rendered (rendered ns es).
Proof.
  intros Hn He.
  assert (ngr_nodeId <$> renderNodes ns = n_id <$> ns) as Hids.
  { unfold renderNodes. rewrite <- list_fmap_compose. apply list_fmap_ext.
    intros _ n _. simpl. unfold render_node.
    by destruct (_ ++ _ ++ _). }
  split; [exact Hids|]. split; [apply renderEdges_ids|].
  split; [exact Hids|]. split; [exact Hn|]. simpl.
  rewrite renderEdges_ids. eapply sublist_NoDup; [exact He|].
  apply fmap_sublist, sublist_filter.
Qed.

Lemma rendered_in_step_witness :
  NoDup (n_id <$> [nA; nB; nC]) ∧ NoDup (e_id <$> [e1; e2]) ∧
  well_rendered (rendered [nA; nB; nC] [e1; e2]).
Proof.
  assert (NoDup (n_id <$> [nA; nB; nC])) as Hn
    by (apply (bool_decide_unpack _); by vm_compute).
  assert (NoDup (e_id <$> [e1; e2])) as He
    by (apply (bool_decide_unpack _); by vm_compute).
  split; [exact Hn|]. split; [exact He|].
  exact (proj2 (proj2 (rendered_in_step [nA; nB; nC] [e1; e2] Hn He))).
Defined.

(** X5.  The main circle of a node, with its shadow filter, is always in the
    group; it is the circle [querySelector('circle')] returns exactly when
    the node has neither a layer ring nor a risk ring. *)
Theorem render_node_first_circle (n : Node) :
  let main := mkCircle (base_stroke n) (base_stroke_width n) (Some shadow) in
  main ∈ ngr_first (render_node n) :: ngr_rest (render_node n) ∧
  (ngr_first (render_node n) = main ↔
     (n_isCenter n = true ∨ (n_layer n <= 0)%Z) ∧
     Qle_bool 60 (n_riskScore n) = false).
Proof.
  unfold render_node.
  destruct (n_isCenter n) eqn:Hc, (0 <? n_layer n)%Z eqn:Hl,
    (Qle_bool 60 (n_riskScore n)) eqn:Hr; simpl.
  all: try apply Z.ltb_lt in Hl; try apply Z.ltb_ge in Hl.
  all: split; [set_solver|].
  all: split; [intros H | intros [[?|?] ?]]; try done; try lia.
  all: try (injection H as _ _ [=]).
  all: split; [auto|done].
Qed.

(** X6.  [clearPathHighlight] is idempotent, and after it no line carries the
    [path-highlight] class. *)
Theorem clearPathHighlight_idempotent (g : NetworkGraph) :
  (clearPathHighlight (clearPathHighlight g).2).2 = (clearPathHighlight g).2 ∧
  ∀ eg, eg ∈ edgesGroup (clearPathHighlight g).2 →
        l_path_highlight (eg_line eg) = false.
Proof.
  split.
  - unfold clearPathHighlight, set_dom. simpl. f_equal.
    + rewrite <- list_fmap_compose. apply list_fmap_ext. intros _ eg _. simpl.
      unfold clear_edge_group. simpl. f_equal.
      unfold clear_line. destruct (l_path_highlight (eg_line eg)) eqn:Hf; simpl; [done|].
      by rewrite Hf.
    + rewrite <- list_fmap_compose. apply list_fmap_ext. intros _ grp _. simpl.
      unfold clear_node_group.
      destruct (find_node (nodes g) (ngr_nodeId grp)) as [[i n]|] eqn:Hf; simpl.
      * by rewrite Hf.
      * by rewrite Hf.
  - simpl. intros eg (eg0 & -> & _)%list_elem_of_fmap. simpl.
    unfold clear_line. by destruct (l_path_highlight (eg_line eg0)) eqn:Hf.
Qed.

(** X7.  The selection highlight keeps no trace of an earlier selection: when
    [b] is a node, [highlightNode(a)] followed by [highlightNode(b)] leaves
    what [highlightNode(b)] alone leaves. *)
Theorem highlightNode_last_wins (g : NetworkGraph) (a b : string) :
  is_Some (find_node (nodes g) b) →
  highlightNode (highlightNode g a) b = highlightNode g b.
Proof.
  intros [[j nb] Hb]. unfold highlightNode at 2.
  destruct (find_node (nodes g) a) as [[i na]|] eqn:Ha; [|done].
  unfold highlightNode. simpl. rewrite Hb. unfold set_pointer, set_dom. simpl.
  f_equal. rewrite <- list_fmap_compose. apply list_fmap_ext. by intros _ grp _.
Qed.

Lemma highlightNode_last_wins_witness :
  is_Some (find_node (nodes g3) "B") ∧
  highlightNode (highlightNode g3 "A") "B" = highlightNode g3 "B".
Proof.
  assert (is_Some (find_node (nodes g3) "B")) as H by (by eexists).
  split; [exact H|]. exact (highlightNode_last_wins g3 "A" "B" H).
Defined.

End RenderExtras.

(** ** Viewport and pointer *)

Module ViewportExtras.
Import Sample.
Local Open Scope R_scope.

(** X8.  [focusOnNode] puts a known node at the centre of the view box without
    changing its size or the zoom, and selects the node; a later [zoomIn] or
    [zoomOut] puts the centre back on the origin, so the focus is lost.  For
    an id that is no node nothing changes. *)
Theorem focusOnNode_centres (g : NetworkGraph) (nodeId : string) :
  match find_node (nodes g) nodeId with
  | Some (i, n) =>
      let g' := focusOnNode g nodeId in
      vb_x (viewBox g') + vb_width (viewBox g') / 2 = n_x n ∧
      vb_y (viewBox g') + vb_height (viewBox g') / 2 = n_y n ∧
      vb_width (viewBox g') = vb_width (viewBox g) ∧
      vb_height (viewBox g') = vb_height (viewBox g) ∧
      zoom g' = zoom g ∧
      selectedNode g' = Some i ∧
      vb_x (viewBox (zoomIn g')) + vb_width (viewBox (zoomIn g')) / 2 = 0 ∧
      vb_x (viewBox (zoomOut g')) + vb_width (viewBox (zoomOut g')) / 2 = 0
  | None => focusOnNode g nodeId = g
  end.
Proof.
  unfold focusOnNode.
  destruct (find_node (nodes g) nodeId) as [[i n]|] eqn:Hf; [|done].
  unfold highlightNode. simpl. rewrite Hf. simpl.
  repeat split; lra.
Qed.

Lemma pan_step g rect x y :
  draggedNode g = None → isPanning g = true →
  let g' := mousemove g rect x y in
  draggedNode g' = None ∧ isPanning g' = true ∧ panStart g' = (x, y) ∧
  zoom g' = zoom g ∧ nodes g' = nodes g ∧
  vb_width (viewBox g') = vb_width (viewBox g) ∧
  vb_height (viewBox g') = vb_height (viewBox g) ∧
  vb_x (viewBox g') = vb_x (viewBox g) - (x - (panStart g).1) * zoom g ∧
  vb_y (viewBox g') = vb_y (viewBox g) - (y - (panStart g).2) * zoom g.
Proof. intros Hd Hp. unfold mousemove. rewrite Hd, Hp. simpl. done. Qed.

Lemma pan_steps rect moves : ∀ g,
  draggedNode g = None → isPanning g = true →
  let g' := mousemoves rect moves g in
  let endp := default (panStart g) (last moves) in
  draggedNode g' = None ∧ isPanning g' = true ∧
  zoom g' = zoom g ∧ nodes g' = nodes g ∧
  vb_width (viewBox g') = vb_width (viewBox g) ∧
  vb_height (viewBox g') = vb_height (viewBox g) ∧
  vb_x (viewBox g') = vb_x (viewBox g) - (endp.1 - (panStart g).1) * zoom g ∧
  vb_y (viewBox g') = vb_y (viewBox g) - (endp.2 - (panStart g).2) * zoom g.
Proof.
  unfold mousemoves.
  induction moves as [|[x y] moves IH]; intros g Hd Hp; simpl.
  - repeat split; try done; lra.
  - destruct (pan_step g rect x y Hd Hp) as (Hd1 & Hp1 & Hs1 & Hz1 & Hn1 & Hw1 & Hh1 & Hx1 & Hy1).
    destruct (IH (mousemove g rect x y) Hd1 Hp1) as (Hd2 & Hp2 & Hz2 & Hn2 & Hw2 & Hh2 & Hx2 & Hy2).
    simpl in Hx2, Hy2.
    assert (default (panStart g) (last ((x, y) :: moves))
            = default (x, y) (last moves)) as ->.
    { destruct moves as [|m moves]; [done|]. rewrite last_cons_cons.
      pose proof (last_is_Some (m :: moves)) as [_ Hl].
      by destruct (Hl ltac:(done)) as [z ->]. }
    rewrite Hs1 in Hx2, Hy2.
    repeat split; try congruence.
    + rewrite Hx2, Hx1, Hz1. simpl. lra.
    + rewrite Hy2, Hy1, Hz1. simpl. lra.
Qed.

(** X9.  Panning follows the pointer.  After a [mousedown] on the empty canvas
    and any sequence of [mousemove]s, the origin of the view box has moved
    against the pointer by the total pointer displacement times the zoom;
    the size of the view box, the zoom and the nodes are untouched. *)
Theorem panning_follows_pointer (g : NetworkGraph) (rect : Rect)
    (x0 y0 : R) (moves : list (R * R)) :
  draggedNode g = None →
  let g' := mousemoves rect moves (mousedown_canvas g x0 y0) in
  let endp := default (x0, y0) (last moves) in
  vb_x (viewBox g') = vb_x (viewBox g) - (endp.1 - x0) * zoom g ∧
  vb_y (viewBox g') = vb_y (viewBox g) - (endp.2 - y0) * zoom g ∧
  vb_width (viewBox g') = vb_width (viewBox g) ∧
  vb_height (viewBox g') = vb_height (viewBox g) ∧
  zoom g' = zoom g ∧
  nodes g' = nodes g.
Proof.
  intros Hd.
  assert (mousedown_canvas g x0 y0
          = set_pointer (selectedNode g) None true (x0, y0) g) as ->
    by (unfold mousedown_canvas; by rewrite Hd).
  destruct (pan_steps rect moves (set_pointer (selectedNode g) None true (x0, y0) g)
              eq_refl eq_refl) as (_ & _ & Hz & Hn & Hw & Hh & Hx & Hy).
  simpl in *. done.
Qed.

Lemma panning_follows_pointer_witness :
  draggedNode g0 = None ∧
  vb_x (viewBox (mousemoves (mkRect 0 0 1000 800) [(10, 0); (30, 5)]
                   (mousedown_canvas g0 0 0)))
  = vb_x (viewBox g0) - (30 - 0) * zoom g0.
Proof.
  split; [reflexivity|].
  exact (proj1 (panning_follows_pointer g0 (mkRect 0 0 1000 800) 0 0
                  [(10, 0); (30, 5)] eq_refl)).
Defined.

(** X10.  While a node is held, a [mousemove] moves that node and nothing else:
    the view box is not panned, even if a pan was under way, and with the
    pointer inside the [<svg>] rectangle the node lands inside the view
    box. *)
Theorem drag_stays_in_view (g : NetworkGraph) (rect : Rect) (x y : R)
    (i : nat) (n : Node) :
  draggedNode g = Some i →
  nodes g !! i = Some n →
  0 < r_width rect → 0 < r_height rect →
  0 <= vb_width (viewBox g) → 0 <= vb_height (viewBox g) →
  r_left rect <= x <= r_left rect + r_width rect →
  r_top rect <= y <= r_top rect + r_height rect →
  let g' := mousemove g rect x y in
  viewBox g' = viewBox g ∧ zoom g' = zoom g ∧
  (∀ j, j ≠ i → nodes g' !! j = nodes g !! j) ∧
  ∃ n', nodes g' !! i = Some n' ∧
        n_vx n' = n_vx n ∧ n_vy n' = n_vy n ∧
        vb_x (viewBox g) <= n_x n' <= vb_x (viewBox g) + vb_width (viewBox g) ∧
        vb_y (viewBox g) <= n_y n' <= vb_y (viewBox g) + vb_height (viewBox g).
Proof.
  intros Hd Hn Hw Hh HW HH Hx Hy. unfold mousemove, svg_point. rewrite Hd. simpl.
  split; [done|]. split; [done|]. split.
  { intros j Hj. by rewrite list_lookup_alter_ne. }
  rewrite list_lookup_alter_eq, Hn. simpl. eexists. split; [done|]. simpl.
  split; [done|]. split; [done|].
  assert (0 <= (x - r_left rect) / r_width rect <= 1) as Hu.
  { split.
    - apply Rmult_le_pos; [lra|]. left. by apply Rinv_0_lt_compat.
    - apply (Rmult_le_reg_r (r_width rect)); [done|].
      unfold Rdiv. rewrite Rmult_assoc, Rinv_l by lra. lra. }
  assert (0 <= (y - r_top rect) / r_height rect <= 1) as Hv.
  { split.
    - apply Rmult_le_pos; [lra|]. left. by apply Rinv_0_lt_compat.
    - apply (Rmult_le_reg_r (r_height rect)); [done|].
      unfold Rdiv. rewrite Rmult_assoc, Rinv_l by lra. lra. }
  split; nra.
Qed.

Lemma drag_stays_in_view_witness :
  ∃ n', nodes (mousemove (mousedown_node g0 "B") (mkRect 0 0 1000 800) 200 400)
          !! 1%nat = Some n' ∧
        vb_x (viewBox g0) <= n_x n' <= vb_x (viewBox g0) + vb_width (viewBox g0).
Proof.
  destruct (drag_stays_in_view (mousedown_node g0 "B") (mkRect 0 0 1000 800)
              200 400 1%nat nB eq_refl eq_refl) as (_ & _ & _ & n' & Hn' & _ & _ & Hx & _);
    simpl; try lra.
  exists n'. split; [exact Hn' | exact Hx].
Defined.

End ViewportExtras.

(** ** The simulation *)

Module SimulationExtras.
Import Sample.
Local Open Scope R_scope.

Lemma total_alter (f : Node → Node) (dx dy : R) (ns : list Node) i :
  (i < length ns)%nat →
  (∀ n, n_vx (f n) = n_vx n + dx ∧ n_vy (f n) = n_vy n + dy) →
  total_vx (alter f i ns) = total_vx ns + dx ∧
  total_vy (alter f i ns) = total_vy ns + dy.
Proof.
  intros Hi Hf. revert i Hi. unfold total_vx, total_vy, alter.
  induction ns as [|n ns IH]; intros i Hi; simpl in Hi; [lia|].
  destruct i as [|i]; simpl.
  - destruct (Hf n) as [-> ->]. lra.
  - destruct (IH i ltac:(lia)) as [Hx Hy]. rewrite Hx, Hy. lra.
Qed.

(** An equal and opposite kick on two objects (or twice on one). *)
Lemma kick_keeps_totals fx fy (ns : list Node) i j :
  (i < length ns)%nat → (j < length ns)%nat →
  total_vx (alter (sub_velocity fx fy) j (alter (add_velocity fx fy) i ns))
    = total_vx ns ∧
  total_vy (alter (sub_velocity fx fy) j (alter (add_velocity fx fy) i ns))
    = total_vy ns.
Proof.
  intros Hi Hj.
  destruct (total_alter (add_velocity fx fy) fx fy ns i Hi) as [Hx Hy]; [done|].
  destruct (total_alter (sub_velocity fx fy) (- fx) (- fy)
              (alter (add_velocity fx fy) i ns) j) as [Hx' Hy'].
  { by rewrite length_alter. }
  { intros n. simpl. lra. }
  rewrite Hx', Hy', Hx, Hy. lra.
Qed.

Lemma repel_pair_totals alpha i j ns :
  total_vx (repel_pair alpha i j ns) = total_vx ns ∧
  total_vy (repel_pair alpha i j ns) = total_vy ns.
Proof.
  unfold repel_pair.
  destruct (ns !! i) eqn:Hi; [|done]. destruct (ns !! j) eqn:Hj; [|done].
  apply kick_keeps_totals; by eapply lookup_lt_Some.
Qed.

Lemma attract_edge_totals alpha ns e :
  total_vx (attract_edge alpha ns e) = total_vx ns ∧
  total_vy (attract_edge alpha ns e) = total_vy ns.
Proof.
  unfold attract_edge, find_node.
  destruct (list_find _ ns) as [[i source]|] eqn:Hi; [|done].
  destruct (list_find (λ n, n_id n = e_target e) ns) as [[j target]|] eqn:Hj; [|done].
  apply list_find_Some in Hi as (Hi & _). apply list_find_Some in Hj as (Hj & _).
  apply kick_keeps_totals; by eapply lookup_lt_Some.
Qed.

(** X11.  The repulsion loop and the edge-attraction loop give every kick to one
    node and its opposite to another: together they leave the sum of the
    velocities of all nodes unchanged. *)
Theorem force_loops_keep_total_velocity (alpha : R) (es : list Edge) (ns : list Node) :
  total_vx (attraction alpha es (repulsion alpha ns)) = total_vx ns ∧
  total_vy (attraction alpha es (repulsion alpha ns)) = total_vy ns.
Proof.
  assert (total_vx (repulsion alpha ns) = total_vx ns ∧
          total_vy (repulsion alpha ns) = total_vy ns) as [Hrx Hry].
  { unfold repulsion. generalize (length ns). intros len.
    generalize (seq 0 len). intros idxs.
    assert (∀ ns1, total_vx ns1 = total_vx ns ∧ total_vy ns1 = total_vy ns →
              ∀ js i, total_vx (fold_left (λ ns2 j, repel_pair alpha i j ns2) js ns1)
                      = total_vx ns ∧
                      total_vy (fold_left (λ ns2 j, repel_pair alpha i j ns2) js ns1)
                      = total_vy ns) as Hinner.
    { intros ns1 H js. revert ns1 H.
      induction js as [|j js IHj]; intros ns1 [Hx Hy] i; simpl; [done|].
      apply IHj. destruct (repel_pair_totals alpha i j ns1) as [-> ->]. done. }
    assert (∀ ns1, total_vx ns1 = total_vx ns ∧ total_vy ns1 = total_vy ns →
              total_vx (fold_left (λ ns1 i,
                 fold_left (λ ns2 j, repel_pair alpha i j ns2)
                           (seq (S i) (len - S i)) ns1) idxs ns1) = total_vx ns ∧
              total_vy (fold_left (λ ns1 i,
                 fold_left (λ ns2 j, repel_pair alpha i j ns2)
                           (seq (S i) (len - S i)) ns1) idxs ns1) = total_vy ns) as Houter.
    { induction idxs as [|i idxs IHi]; intros ns1 H; simpl; [done|].
      apply IHi. by apply Hinner. }
    by apply Houter. }
  unfold attraction. rewrite <- Hrx, <- Hry. generalize (repulsion alpha ns).
  induction es as [|e es IH]; intros ns1; simpl; [done|].
  destruct (IH (attract_edge alpha ns1 e)) as [-> ->].
  apply attract_edge_totals.
Qed.

Lemma integrate_identity alpha n : same_identity n (integrate alpha n).
Proof.
  unfold same_identity, integrate.
  destruct (if n_isCenter n then _ else _) as [vx vy]. by simpl.
Qed.

(** X12.  A simulation step changes positions and velocities only: the ids,
    names, types, risk scores, center flags, radii and layers of the nodes,
    the edges, the SVG elements, the view and the pointer state are what they
    were.  The layer a node got from [parseData] is never recomputed. *)
Theorem applyForces_keeps_identity (alpha : R) (g : NetworkGraph) :
  Forall2 same_identity (nodes g) (nodes (applyForces alpha g)) ∧
  applyForces alpha g = set_nodes (nodes (applyForces alpha g)) g ∧
  (well_rendered g → well_rendered (applyForces alpha g)).
Proof.
  assert (Forall2 same_identity (nodes g) (nodes (applyForces alpha g))) as HF.
  { pose proof (SimulationProofs.forces_keep_places alpha (edges g) (nodes g)) as Hf.
    apply Forall2_same_length_lookup. split.
    - unfold applyForces, integration. simpl. rewrite length_imap.
      by eapply Forall2_length.
    - intros i n n' Hn Hn'. rewrite SimulationProofs.applyForces_lookup in Hn'.
      destruct (Forall2_lookup_l _ _ _ _ _ Hf Hn) as (m & Hm & Hs).
      rewrite Hm in Hn'. simpl in Hn'. injection Hn' as <-.
      assert (same_identity n m) as (H1 & H2 & H3 & H4 & H5 & H6 & H7).
      { unfold same_but_velocity in Hs. rewrite Hs. by unfold same_identity. }
      case_bool_decide; [by unfold same_identity|].
      destruct (integrate_identity alpha m) as (I1 & I2 & I3 & I4 & I5 & I6 & I7).
      unfold same_identity. by rewrite I1, I2, I3, I4, I5, I6, I7. }
  split; [exact HF|]. split; [done|].
  intros (Hids & Hnd & Hne). unfold well_rendered.
  assert (n_id <$> nodes (applyForces alpha g) = n_id <$> nodes g) as ->.
  { apply list_eq. intros i. rewrite !list_lookup_fmap.
    destruct (nodes g !! i) as [n|] eqn:Hn.
    - destruct (Forall2_lookup_l _ _ _ _ _ HF Hn) as (n' & -> & Hid & _). simpl.
      by rewrite Hid.
    - apply Forall2_length in HF. apply lookup_ge_None in Hn.
      rewrite (proj2 (lookup_ge_None _ _)); [done | lia]. }
  done.
Qed.

Lemma zero_kick x y n :
  x = 0 → y = 0 → add_velocity x y n = n ∧ sub_velocity x y n = n.
Proof.
  intros -> ->. destruct n. unfold add_velocity, sub_velocity. simpl.
  split; f_equal; lra.
Qed.

Lemma forces_at_zero es ns : attraction 0 es (repulsion 0 ns) = ns.
Proof.
  assert (∀ i j ns1, repel_pair 0 i j ns1 = ns1) as Hrep.
  { intros i j ns1. unfold repel_pair.
    destruct (ns1 !! i) as [n1|]; [|done]. destruct (ns1 !! j) as [n2|]; [|done].
    simpl. rewrite !list_alter_id; [done|..]; intros n; apply zero_kick;
      rewrite ?Rmult_0_r; done. }
  assert (∀ e ns1, attract_edge 0 ns1 e = ns1) as Hatt.
  { intros e ns1. unfold attract_edge.
    destruct (find_node ns1 (e_source e)) as [[i source]|]; [|done].
    destruct (find_node ns1 (e_target e)) as [[j target]|]; [|done].
    simpl. rewrite !list_alter_id; [done|..]; intros n; apply zero_kick;
      rewrite ?Rmult_0_r; done. }
  assert (repulsion 0 ns = ns) as ->.
  { unfold repulsion. generalize (length ns). intros len.
    generalize (seq 0 len). intros idxs. revert ns.
    induction idxs as [|i idxs IH]; intros ns; simpl; [done|].
    assert (fold_left (λ ns2 j, repel_pair 0 i j ns2) (seq (S i) (len - S i)) ns = ns)
      as ->; [|apply IH].
    generalize (seq (S i) (len - S i)). intros js. revert ns.
    induction js as [|j js IHj]; intros ns; simpl; [done|].
    by rewrite Hrep. }
  unfold attraction. induction es as [|e es IH]; simpl; [done|].
  by rewrite Hatt.
Qed.

(** X13.  The cooling coefficient of the 150th tick of a run is [0]: that step
    applies no force at all.  It multiplies the velocity of every node
    that is not dragged by the damping factor, moves the node by the damped
    velocity and clamps the position. *)
Theorem last_tick_only_damps (g : NetworkGraph) (j : nat) (n : Node) :
  simulationRunning g = true →
  nodes g !! j = Some n →
  draggedNode g ≠ Some j →
  (tick 149 g).2 = Some 150%nat ∧
  ∃ n', nodes (tick 149 g).1 !! j = Some n' ∧
        n_vx n' = n_vx n * 0.8 ∧
        n_vy n' = n_vy n * 0.8 ∧
        n_x n' = Rmax (-500) (Rmin 500 (n_x n + n_vx n * 0.8)) ∧
        n_y n' = Rmax (-500) (Rmin 500 (n_y n + n_vy n * 0.8)).
Proof.
  intros Hr Hn Hd.
  rewrite SchedulerProofs.tick_running by (done || (unfold maxSteps; lia)).
  split; [done|]. cbn [fst].
  assert (1 - INR 150 / INR maxSteps = 0) as ->.
  { unfold maxSteps. rewrite (INR_IZR_INZ 150).
    change (Z.of_nat 150) with 150%Z. lra. }
  rewrite SimulationProofs.applyForces_lookup, forces_at_zero, Hn. simpl.
  rewrite bool_decide_eq_false_2 by done.
  eexists. split; [done|].
  unfold integrate, centerStrength, layerStrength, damping, maxDist.
  destruct (n_isCenter n); simpl.
  - rewrite !Rmult_0_r, !Rminus_0_r. done.
  - repeat destruct (Rlt_dec _ _); simpl;
      rewrite ?Rmult_0_r, ?Rminus_0_r; done.
Qed.

Lemma last_tick_only_damps_witness :
  simulationRunning (set_running true g0) = true ∧
  ∃ n', nodes (tick 149 (set_running true g0)).1 !! 1%nat = Some n' ∧
        n_vx n' = n_vx nB * 0.8.
Proof.
  split; [reflexivity|].
  destruct (last_tick_only_damps (set_running true g0) 1%nat nB eq_refl eq_refl)
    as (_ & n' & Hn' & Hvx & _); [discriminate|].
  exists n'. split; [exact Hn' | exact Hvx].
Defined.

(** X19.  A simulation step does not modify the position of the node that
    is being dragged, and it updates every other node exactly as it would
    with no node dragged: the held node still repels the others and pulls
    on its edges. *)
Theorem applyForces_keeps_dragged_place (alpha : R) (g : NetworkGraph)
    (i : nat) (n : Node) :
  draggedNode g = Some i →
  nodes g !! i = Some n →
  ∃ n',
    nodes (applyForces alpha g) !! i = Some n' ∧
    n_x n' = n_x n ∧ n_y n' = n_y n ∧
    ∀ j, j ≠ i →
      nodes (applyForces alpha g) !! j = nodes (applyForces alpha (mouseup g)) !! j.
Proof.
  intros Hd Hn.
  destruct (SimulationProofs.applyForces_dragged_lookup alpha g i n Hd Hn)
    as (n' & Hn' & Hf & Hs).
  exists n'. split; [done|].
  destruct (SimulationProofs.same_but_velocity_position _ _ Hs) as [Hx Hy].
  split; [done|]. split; [done|].
  intros j Hj. rewrite !SimulationProofs.applyForces_lookup. simpl. rewrite Hd.
  rewrite !bool_decide_eq_false_2; [done | congruence..].
Qed.

Lemma applyForces_keeps_dragged_place_witness :
  ∃ n',
    nodes (applyForces (149 / 150) (mousedown_node g0 "B")) !! 1%nat = Some n' ∧
    n_x n' = n_x nB ∧ n_y n' = n_y nB ∧
    ∀ j, j ≠ 1%nat →
      nodes (applyForces (149 / 150) (mousedown_node g0 "B")) !! j
      = nodes (applyForces (149 / 150) (mouseup (mousedown_node g0 "B"))) !! j.
Proof.
  exact (applyForces_keeps_dragged_place (149 / 150) (mousedown_node g0 "B") 1%nat nB
           eq_refl eq_refl).
Defined.

(** X20.  From a [mousemove] over a held node to the [mouseup], with any
    number of simulation steps in between: the release clears
    [draggedNode], and the node is at the point of the [mousemove]. *)
Theorem drag_release_keeps_position (g : NetworkGraph) (rect : Rect)
    (clientX clientY : R) (i : nat) (alphas : list R) :
  draggedNode g = Some i →
  (i < length (nodes g))%nat →
  let g1 := mousemove g rect clientX clientY in
  let g2 := fold_left (λ g0 alpha, applyForces alpha g0) alphas g1 in
  let g3 := mouseup g2 in
  draggedNode g3 = None ∧
  ∃ n3, nodes g3 !! i = Some n3 ∧
        (n_x n3, n_y n3) = svg_point g rect clientX clientY.
Proof.
  intros Hd Hi g1 g2 g3. split; [done|].
  destruct (lookup_lt_is_Some_2 (nodes g) i Hi) as [n Hn].
  assert (draggedNode g1 = Some i) as Hd1.
  { unfold g1, mousemove. rewrite Hd. by destruct (svg_point _ _ _ _). }
  assert (nodes g1 !! i
          = Some (move_to (svg_point g rect clientX clientY).1
                          (svg_point g rect clientX clientY).2 n)) as Hn1.
  { unfold g1, mousemove. rewrite Hd. destruct (svg_point _ _ _ _) as [x y]. simpl.
    by rewrite list_lookup_alter_eq, Hn. }
  destruct (SimulationProofs.steps_keep_dragged_place alphas g1 i _ Hd1 Hn1)
    as (_ & n3 & Hn3 & Hs).
  exists n3. split; [done|].
  destruct (SimulationProofs.same_but_velocity_position _ _ Hs) as [-> ->].
  unfold move_to. cbn [n_x n_y]. symmetry. apply surjective_pairing.
Qed.

Lemma drag_release_keeps_position_witness :
  let g := mousedown_node g0 "B" in
  let g1 := mousemove g (mkRect 0 0 1000 800) 200 400 in
  let g2 := fold_left (λ g0 alpha, applyForces alpha g0) [149 / 150] g1 in
  let g3 := mouseup g2 in
  draggedNode g3 = None ∧
  ∃ n3, nodes g3 !! 1%nat = Some n3 ∧
        (n_x n3, n_y n3) = svg_point g (mkRect 0 0 1000 800) 200 400.
Proof.
  apply (drag_release_keeps_position (mousedown_node g0 "B") (mkRect 0 0 1000 800)
           200 400 1%nat [149 / 150]).
  - reflexivity.
  - simpl. lia.
Defined.

End SimulationExtras.

(** ** Restarting the simulation *)

Module SchedulerExtras.
Import SchedulerProofs.
Local Open Scope nat_scope.

Lemma applyForces_running alpha g :
  simulationRunning (applyForces alpha g) = simulationRunning g.
Proof. reflexivity. Qed.

(** One frame of two runs that are both under way. *)
Lemma frame_pair a b g :
  simulationRunning g = true → a < maxSteps → b < maxSteps →
  ∃ g', frame (mkPage g [a; b]) = mkPage g' [S a; S b] ∧
        simulationRunning g' = true.
Proof.
  intros Hr Ha Hb. unfold frame. cbn [scheduled graph fold_left].
  rewrite run_callback_eq, tick_running by done. cbn [fst snd].
  rewrite run_callback_eq, tick_running by done. cbn [fst snd].
  eexists. split; [reflexivity|]. done.
Qed.

Lemma frames_pair n : ∀ a b g,
  simulationRunning g = true → b ≤ a → n + a ≤ maxSteps →
  ∃ g', frames n (mkPage g [a; b]) = mkPage g' [n + a; n + b] ∧
        simulationRunning g' = true.
Proof.
  induction n as [|n IH]; intros a b g Hr Hba Hn.
  - exists g. done.
  - destruct (frame_pair a b g Hr) as (g1 & Hf & Hr1); [lia..|].
    simpl frames. rewrite Hf.
    destruct (IH (S a) (S b) g1 Hr1) as (g' & Hg' & Hr'); [lia..|].
    exists g'. rewrite Hg'. split; [|done].
    by replace (n + S a) with (S n + a) by lia; replace (n + S b) with (S n + b) by lia.
Qed.

(** X14.  A run restarted while an earlier run is under way does not get its 150
    steps.  If [startSimulation] is called again when the closure of an
    earlier run has counted [k] steps (as [resetLayout] does, whatever nodes
    it has put in place), both runs step in every frame, and when the
    earlier one has counted 150 steps its last tick clears
    [simulationRunning], which ends the later one too: [150 - k] frames
    after the restart nothing is scheduled any more. *)
Theorem restart_is_cut_short (g : NetworkGraph) (k : nat) :
  k ≤ maxSteps →
  let p := startSimulation (mkPage g [k]) in
  (∀ n, n ≤ maxSteps - k →
     scheduled (frames n p) = [n + k; n] ∧
     simulationRunning (graph (frames n p)) = true) ∧
  scheduled (frames (S (maxSteps - k)) p) = [] ∧
  simulationRunning (graph (frames (S (maxSteps - k)) p)) = false.
Proof.
  intros Hk p.
  assert (p = mkPage (set_running true g) [k; 0]) as -> by done.
  set (g1 := set_running true g).
  assert (∀ n, n ≤ maxSteps - k →
            ∃ g', frames n (mkPage g1 [k; 0]) = mkPage g' [n + k; n] ∧
                  simulationRunning g' = true) as Hrun.
  { intros n Hn. destruct (frames_pair n k 0 g1 eq_refl) as (g' & Hg' & Hr'); [lia..|].
    exists g'. by rewrite Hg', Nat.add_0_r. }
  split.
  { intros n Hn. destruct (Hrun n Hn) as (g' & -> & Hr'). done. }
  assert (∀ a q, frames (S a) q = frame (frames a q)) as Hlast.
  { intros a. induction a as [|a IHa]; intros q; [done|].
    change (frames (S (S a)) q) with (frames (S a) (frame q)).
    by rewrite IHa. }
  rewrite Hlast.
  destruct (Hrun (maxSteps - k) ltac:(lia)) as (g' & -> & Hr').
  replace (maxSteps - k + k) with maxSteps by lia.
  unfold frame. cbn [scheduled graph fold_left].
  rewrite run_callback_eq, tick_stopped by (right; lia). cbn [fst snd].
  rewrite run_callback_eq, tick_stopped by (by left). cbn [fst snd]. done.
Qed.

Lemma restart_is_cut_short_witness :
  scheduled (frames (S (maxSteps - 100))
               (startSimulation (mkPage Sample.g0 [100]))) = [].
Proof.
  assert (100 ≤ maxSteps) as H by (unfold maxSteps; lia).
  exact (proj1 (proj2 (restart_is_cut_short Sample.g0 100 H))).
Defined.

End SchedulerExtras.

(** ** Labels *)

Module LabelExtras.
Local Open Scope nat_scope.

Lemma length_substring_0 (k : nat) : ∀ s : string,
  k ≤ String.length s → String.length (String.substring 0 k s) = k.
Proof.
  induction k as [|k IH]; intros s Hk.
  - by destruct s.
  - destruct s as [|c s]; simpl in *; [lia|]. rewrite IH; [done | lia].
Qed.

Lemma length_append (s t : string) :
  String.length (s +:+ t) = String.length s + String.length t.
Proof. induction s as [|c s IH]; simpl; [done | by rewrite IH]. Qed.

(** X15.  [truncateName] returns a name of at most [maxLength] code units as it
    is; a longer name is cut to its first [maxLength - 2] code units followed
    by three dots, so for [maxLength >= 2] the label is [maxLength + 1] code
    units long, one more than the limit. *)
Theorem truncateName_length (name : string) (maxLength : nat) :
  (String.length name ≤ maxLength → truncateName name maxLength = name) ∧
  (maxLength < String.length name → 2 ≤ maxLength →
     truncateName name maxLength
       = String.substring 0 (maxLength - 2) name +:+ "..." ∧
     String.length (truncateName name maxLength) = maxLength + 1).
Proof.
  unfold truncateName. split.
  - intros Hle. case_bool_decide as He; [by rewrite He|].
    by rewrite (proj2 (Nat.leb_le _ _) Hle).
  - intros Hlt Hm. rewrite bool_decide_eq_false_2 by (intros ->; simpl in Hlt; lia).
    rewrite (proj2 (Nat.leb_gt _ _) Hlt). split; [done|].
    rewrite length_append, length_substring_0 by lia. simpl. lia.
Qed.

End LabelExtras.

(** ** The registry of graphs *)

Module ApiExtras.


(** X16.  [render] registers a graph whose node count is the number of node
    records and whose edge count is the number of relationship records,
    those with an unknown end included, in place of whatever was registered
    under the id; without a container element it registers nothing.  The
    graphs registered under other ids are not touched. *)
Theorem render_registers (graphs : Api.Graphs) (elementId : string)
    (data : GraphData) (random : nat → R * R) :
  (Api.render graphs elementId false data random = (false, graphs)) ∧
  (let graphs' := (Api.render graphs elementId true data random).2 in
   (Api.render graphs elementId true data random).1 = true ∧
   Api.getNodeCount graphs' elementId = length (or_nil (d_nodes data)) ∧
   Api.getEdgeCount graphs' elementId = length (or_nil (relationships data)) ∧
   ∀ other, other ≠ elementId → graphs' !! other = graphs !! other).
Proof.
  split; [done|]. simpl. split; [done|].
  unfold Api.getNodeCount, Api.getEdgeCount. rewrite lookup_insert_eq.
  unfold Api.construct, parseData. simpl.
  rewrite length_imap, length_fmap. split; [done|]. split; [done|].
  intros other Ho. by rewrite lookup_insert_ne.
Qed.

(** X17.  [destroy] returns [true] exactly for a registered id.  Afterwards the
    id is unknown: both counts are [0], every other exported operation on it
    returns [false] and changes nothing, a second [destroy] included; the
    other graphs are not touched. *)
Theorem destroy_unregisters (graphs : Api.Graphs) (elementId : string) :
  let graphs' := (Api.destroy graphs elementId).2 in
  ((Api.destroy graphs elementId).1 = true ↔ is_Some (graphs !! elementId)) ∧
  Api.getNodeCount graphs' elementId = 0 ∧
  Api.getEdgeCount graphs' elementId = 0 ∧
  Api.destroy graphs' elementId = (false, graphs') ∧
  Api.zoomIn graphs' elementId = (false, graphs') ∧
  Api.zoomOut graphs' elementId = (false, graphs') ∧
  (∀ a b, Api.highlightPath graphs' elementId a b = (false, graphs')) ∧
  Api.clearPathHighlight graphs' elementId = (false, graphs') ∧
  (∀ a, Api.highlightNode graphs' elementId a = (false, graphs')) ∧
  (∀ a, Api.focusOnNode graphs' elementId a = (false, graphs')) ∧
  ∀ other, other ≠ elementId → graphs' !! other = graphs !! other.
Proof.
  assert ((Api.destroy graphs elementId).2 !! elementId = None) as Hnone.
  { unfold Api.destroy. destruct (graphs !! elementId) eqn:Hg; simpl; [|done].
    apply lookup_delete_eq. }
  simpl. split.
  { unfold Api.destroy. destruct (graphs !! elementId); simpl; [by split; eauto|].
    split; [done | by intros [? ?]]. }
  unfold Api.getNodeCount, Api.getEdgeCount, Api.zoomIn, Api.zoomOut,
    Api.highlightPath, Api.clearPathHighlight, Api.highlightNode, Api.focusOnNode,
    Api.call.
  unfold Api.destroy at 3. rewrite !Hnone.
  repeat (split; [done|]).
  intros other Ho. unfold Api.destroy. destruct (graphs !! elementId); simpl; [|done].
  by rewrite lookup_delete_ne.
Qed.



End ApiExtras.
